(** * Stack-capturing errors (package [errors], file error.go)

    A shallow embedding of the error-wrapping code of error.go: the
    [Error] struct, the constructors [New], [Wrap], [wrap], [WrapPrefix],
    [Errorf] and the methods of [*Error].

    Go values of type [*Error] are pointers, and two of the properties
    below are about pointer identity and about the one field that is
    written after construction ([frames]).  The embedding therefore keeps
    an explicit store of [Error] structs indexed by address; every
    function that allocates or writes runs in a small state-and-panic
    monad over that store. *)

From Stdlib Require Import ZArith Lia.
From stdpp Require Import base list strings.

Local Open Scope string_scope.
Local Open Scope list_scope.

(** ** Values *)

(** [uintptr]: a program counter; a 64-bit unsigned integer. *)
Definition uintptr := Z.

(** Addresses of [Error] structs in the store. *)
Abbreviation loc := nat (only parsing).

(** A [*Error]: the nil pointer or the address of a struct. *)
Definition ptr := option loc.

(** The dynamic type of an error value that is not a [*Error].
    [uncaughtPanic] is the type of this package that [TypeName] tests
    for; its declaration is outside error.go. *)
Inductive dyn_type : Type :=
| T_errorString
| T_uncaughtPanic
| T_named (name : string).

(** What [reflect.TypeOf(v).String()] prints for such a type. *)
Definition type_String (t : dyn_type) : string :=
  match t with
  | T_errorString => "*errors.errorString"
  | T_uncaughtPanic => "errors.uncaughtPanic"
  | T_named n => n
  end.

(** What a call of the method [Error] of an error of another type does:
    it returns a string, or it panics, as the method of a nil pointer
    does when it reads through its receiver (a nil [*fs.PathError]). *)
Inductive Error_call : Type :=
| Returns (msg : string)
| Panics.

(** An error of another type: its dynamic type and what its method
    [Error] does. *)
Record plain_error : Type := mk_foreign {
  etype : dyn_type;
  eError : Error_call
}.

(** An error of another type whose method [Error] returns [msg]. *)
Definition mk_plain (t : dyn_type) (msg : string) : plain_error :=
  mk_foreign t (Returns msg).

(** A non-nil value of interface type [error]. *)
Inductive error_val : Type :=
| PtrError (p : ptr)
| Plain (e : plain_error).

(** The interface type [error]: [None] is the nil interface. *)
Definition error := option error_val.

(** A value that does not implement [error]: its dynamic type and what
    the verb [%v] prints for it. *)
Record other_value : Type := mk_other {
  otype : string;
  orepr : string
}.

(** The interface type [interface{}], as the type switches of [New] and
    [wrap] see it. *)
Inductive iface : Type :=
| INil
| IErr (e : error_val)
| IOther (v : other_value).

(** Conversion of an [error] to [interface{}]. *)
Definition to_iface (e : error) : iface :=
  match e with
  | None => INil
  | Some ev => IErr ev
  end.

(** ** Frame descriptors *)

(** Modelled from the spec: the struct [StackFrame] and the function
    [NewStackFrame] are declared in a file that is not under src/.  The
    spec's FrameDescriptor has the program counter it was resolved from
    and three display fields; Resolve queries the runtime symbol table
    and gives a descriptor with empty fields when the table has nothing. *)
Record StackFrame : Type := mk_frame {
  location : uintptr;
  functionName : string;
  fileName : string;
  lineNumber : Z
}.

(** The zero value of the struct, which [make([]StackFrame, n)] fills the
    new slice with. *)
Definition zero_StackFrame : StackFrame := mk_frame 0%Z "" "" 0%Z.

(** The runtime symbol table: function, file and line of a program
    counter, when known. *)
Definition symtab := uintptr -> option (string * string * Z).

(** Modelled from the spec: [NewStackFrame] (Resolve), see [StackFrame]. *)
Definition NewStackFrame (sym : symtab) (pc : uintptr) : StackFrame :=
  match sym pc with
  | Some (fn, file, line) => mk_frame pc fn file line
  | None => mk_frame pc "" "" 0%Z
  end.

(** ** The struct and the store *)

Record Error : Type := mk_Error {
  Err : error;
  stack : list uintptr;
  frames : option (list StackFrame);   (* [None] is the nil slice *)
  prefix : string
}.

(** The program state: the package variable [MaxStackDepth], the store of
    [Error] structs, and a trace of the program counters that were handed
    to [NewStackFrame] (most recent last). *)
Record state : Type := mk_state {
  MaxStackDepth : Z;
  heap : list Error;
  resolved : list uintptr
}.

(** The initial value of the package variable. *)
Definition MaxStackDepth_default : Z := 50%Z.

Definition init_state : state := mk_state MaxStackDepth_default [] [].

(** ** Results: return, panic, or out of fuel *)

Inductive panic : Type :=
| NilDereference
| MakesliceLenOutOfRange
| IndexOutOfRange
| ForeignPanic.

Inductive outcome (A : Type) : Type :=
| Ret (a : A)
| Panic (why : panic)
| OutOfFuel.
Arguments Ret {A} a.
Arguments Panic {A} why.
Arguments OutOfFuel {A}.

Definition M (A : Type) : Type := state -> outcome (A * state).

Definition ret {A} (a : A) : M A := fun s => Ret (a, s).

Definition bind {A B} (m : M A) (k : A -> M B) : M B :=
  fun s =>
    match m s with
    | Ret (a, s') => k a s'
    | Panic w => Panic w
    | OutOfFuel => OutOfFuel
    end.

Definition throw {A} (w : panic) : M A := fun _ => Panic w.

(** Lifting of a computation that only reads the state. *)
Definition lift {A} (f : state -> outcome A) : M A :=
  fun s =>
    match f s with
    | Ret a => Ret (a, s)
    | Panic w => Panic w
    | OutOfFuel => OutOfFuel
    end.

(** The monad interface of stdpp, which gives the notation [x ← m; k]. *)
#[global] Instance M_ret : MRet M := @ret.
#[global] Instance M_bind : MBind M := fun A B k m => bind m k.

(** [&Error{...}]: a new struct at a fresh address. *)
Definition alloc (e : Error) : M ptr :=
  fun s =>
    Ret (Some (length (heap s)),
         mk_state (MaxStackDepth s) (heap s ++ [e]) (resolved s)).

(** Reading through a [*Error].  The nil pointer panics.  An address
    outside the store does not exist in Go; the embedding panics there
    too. *)
Definition deref (h : list Error) (p : ptr) : outcome Error :=
  match p with
  | None => Panic NilDereference
  | Some l =>
      match h !! l with
      | Some e => Ret e
      | None => Panic NilDereference
      end
  end.

(** ** The Go runtime and fmt *)

(** Go's [int] on a 64-bit platform: addition wraps around. *)
Definition int_wrap (z : Z) : Z := ((z + 2 ^ 63) mod 2 ^ 64 - 2 ^ 63)%Z.

Definition int_add (a b : Z) : Z := int_wrap (a + b)%Z.

(** [make([]uintptr, n)]: panics for a negative length, and gives [n]
    zeros otherwise. *)
Definition make_uintptr (n : Z) : M (list uintptr) :=
  if (n <? 0)%Z then throw MakesliceLenOutOfRange
  else ret (replicate (Z.to_nat n) 0%Z).

(** [runtime.Callers(skip, pc)].  [g] is the sequence of return program
    counters of the calling goroutine at the moment of the call, innermost
    first; entry 0 is the frame of [Callers] itself.  The function skips
    [skip] entries (none when [skip] is not positive), writes what follows
    into [pc] as far as it fits, and returns the number of entries written
    with the slice. *)
Definition runtime_Callers (g : list uintptr) (skip : Z) (pc : list uintptr)
  : list uintptr * nat :=
  let found := take (length pc) (drop (Z.to_nat skip) g) in
  (found ++ drop (length found) pc, length found).

(** [fmt.Sprintf("%s: %s", a, b)]. *)
Definition Sprintf_s_colon_s (a b : string) : string := a +:+ ": " +:+ b.

(** [fmt.Errorf("%v", e)] in the [default] branch of the type switches,
    where [e] is the nil interface ([None]) or a value that is not an
    error.  The result is a [*errors.errorString] with the text [%v]
    prints, which is ["<nil>"] for the nil interface. *)
Definition fmt_Errorf_v (e : option other_value) : error_val :=
  Plain (mk_plain T_errorString
           match e with
           | None => "<nil>"
           | Some v => orepr v
           end).

(** [fmt.Errorf(format, a...)] of [Errorf]: some error that is not a
    [*Error], with the formatted message. *)
Definition fmt_Errorf (t : dyn_type) (formatted : string) : error_val :=
  Plain (mk_plain t formatted).

(** ** Constructors *)

(** Every constructor takes [g], the stack of the goroutine as
    [runtime.Callers] sees it when the constructor calls it. *)

Definition New (g : list uintptr) (e : iface) : M error :=
  let err :=
    match e with
    | IErr e => e
    | INil => fmt_Errorf_v None
    | IOther v => fmt_Errorf_v (Some v)
    end in
  depth ← lift (fun s => Ret (MaxStackDepth s));
  stack ← make_uintptr depth;
  let '(stack, length) := runtime_Callers g 2%Z stack in
  p ← alloc (mk_Error (Some err) (take length stack) None "");
  mret (Some (PtrError p)).

(** The internal [wrap], which returns a [*Error]. *)
Definition wrap (g : list uintptr) (e : iface) (skip : Z) : M ptr :=
  match e with
  | IErr (PtrError e) => mret e
  | _ =>
      let err :=
        match e with
        | IErr e => e
        | INil => fmt_Errorf_v None
        | IOther v => fmt_Errorf_v (Some v)
        end in
      depth ← lift (fun s => Ret (MaxStackDepth s));
      stack ← make_uintptr depth;
      let '(stack, length) := runtime_Callers g (int_add 3%Z skip) stack in
      alloc (mk_Error (Some err) (take length stack) None "")
  end.

Definition Wrap (g : list uintptr) (e : iface) (skip : Z) : M error :=
  match e with
  | INil => mret None
  | _ =>
      p ← wrap g e skip;
      mret (Some (PtrError p))
  end.

Definition WrapPrefix (g : list uintptr) (e : iface) (pfx : string) (skip : Z)
  : M error :=
  match e with
  | INil => mret None
  | _ =>
      p ← wrap g e skip;
      err ← lift (fun s => deref (heap s) p);
      let pfx :=
        if decide (prefix err <> "") then Sprintf_s_colon_s pfx (prefix err)
        else pfx in
      q ← alloc (mk_Error (Err err) (stack err) None pfx);
      mret (Some (PtrError q))
  end.

Definition Errorf (g : list uintptr) (t : dyn_type) (formatted : string)
  : M error :=
  Wrap g (IErr (fmt_Errorf t formatted)) 1%Z.

(** ** Methods that only read the store *)

#[global] Instance outcome_ret : MRet outcome := @Ret.
#[global] Instance outcome_bind : MBind outcome := fun A B k o =>
  match o with
  | Ret a => k a
  | Panic w => Panic w
  | OutOfFuel => OutOfFuel
  end.

(** The call of the method [Error] of an error of another type. *)
Definition call_Error (e : plain_error) : outcome string :=
  match eError e with
  | Returns msg => Ret msg
  | Panics => Panic ForeignPanic
  end.

(** The method [Error] of [*Error].  The call [err.Err.Error()] is
    dispatched on the dynamic type of the field: it panics on the nil
    interface, calls the method of an error of another type, and calls
    this method again when the field holds a [*Error].  The recursion
    follows pointers through the store, so it takes fuel. *)
Fixpoint Error_Error (fuel : nat) (h : list Error) (p : ptr) : outcome string :=
  match fuel with
  | O => OutOfFuel
  | S fuel' =>
      err ← deref h p;
      msg ← match Err err with
            | None => Panic NilDereference
            | Some (Plain e) => call_Error e
            | Some (PtrError q) => Error_Error fuel' h q
            end;
      Ret (if decide (prefix err <> "") then Sprintf_s_colon_s (prefix err) msg
           else msg)
  end.

(** The call [e.Error()] on the interface value [e], as the method [Error]
    makes it on the field [Err]. *)
Definition underlying_message (fuel : nat) (h : list Error) (e : error)
  : outcome string :=
  match e with
  | None => Panic NilDereference
  | Some (Plain pe) => call_Error pe
  | Some (PtrError q) => Error_Error fuel h q
  end.

(** The message with the prefix of the struct in front, when it has one. *)
Definition prefixed (pfx msg : string) : string :=
  if decide (pfx <> "") then Sprintf_s_colon_s pfx msg else msg.

(** The method [Callers] of [*Error]. *)
Definition Error_Callers (h : list Error) (p : ptr) : outcome (list uintptr) :=
  err ← deref h p;
  Ret (stack err).

(** Modelled from the spec: the type [uncaughtPanic] is declared in a file
    that is not under src/; the spec has it mark a value that came from an
    uncaught runtime failure.  The type assertion
    [err.Err.(uncaughtPanic)] holds for the errors of that dynamic type. *)
Definition is_uncaughtPanic (e : error) : bool :=
  match e with
  | Some (Plain pe) =>
      match etype pe with
      | T_uncaughtPanic => true
      | _ => false
      end
  | _ => false
  end.

(** [reflect.TypeOf(e).String()]: [reflect.TypeOf] of the nil interface is
    nil, and the call of [String] on it panics. *)
Definition reflect_TypeOf_String (e : error) : outcome string :=
  match e with
  | Some (Plain pe) => Ret (type_String (etype pe))
  | Some (PtrError _) => Ret "*errors.Error"
  | None => Panic NilDereference
  end.

(** The method [TypeName] of [*Error]. *)
Definition Error_TypeName (h : list Error) (p : ptr) : outcome string :=
  err ← deref h p;
  if is_uncaughtPanic (Err err) then Ret "panic"
  else reflect_TypeOf_String (Err err).

(** The method [Unwrap] of [*Error]. *)
Definition Error_Unwrap (h : list Error) (p : ptr) : outcome error :=
  err ← deref h p;
  Ret (Err err).

(** The message of a value as the constructors take it: [Error()] of an
    error, the [%v] text of anything else. *)
Definition message_of (fuel : nat) (h : list Error) (e : iface) : outcome string :=
  match e with
  | IErr (PtrError p) => Error_Error fuel h p
  | IErr (Plain pe) => call_Error pe
  | INil => Ret "<nil>"
  | IOther v => Ret (orepr v)
  end.

(** ** Frame resolution *)

Definition newline : string := String (Ascii.ascii_of_nat 10) EmptyString.

(** The struct with its field [frames] replaced. *)
Definition with_frames (err : Error) (v : option (list StackFrame)) : Error :=
  mk_Error (Err err) (stack err) v (prefix err).

Section Frames.

(** The symbol table of the running program, and the rendering of one
    frame: the method [String] of [*StackFrame], which is declared outside
    error.go and reads source lines from disk, is a parameter. *)
Variable sym : symtab.
Variable StackFrame_String : StackFrame -> string.

(** A call of [NewStackFrame], recorded in the trace. *)
Definition call_NewStackFrame (pc : uintptr) : M StackFrame :=
  fun s =>
    Ret (NewStackFrame sym pc,
         mk_state (MaxStackDepth s) (heap s) (resolved s ++ [pc])).

(** [err.frames = v]. *)
Definition set_frames (p : ptr) (v : option (list StackFrame)) : M unit :=
  fun s =>
    match p with
    | Some l =>
        match heap s !! l with
        | Some err =>
            Ret (tt, mk_state (MaxStackDepth s)
                       (<[l := mk_Error (Err err) (stack err) v (prefix err)]>
                          (heap s))
                       (resolved s))
        | None => Panic NilDereference
        end
    | None => Panic NilDereference
    end.

(** [err.frames[i] = f]: the field is read again at every write; an index
    outside the slice panics. *)
Definition set_frame (p : ptr) (i : nat) (f : StackFrame) : M unit :=
  err ← lift (fun s => deref (heap s) p);
  match frames err with
  | Some fs =>
      if decide (i < length fs)%nat then set_frames p (Some (<[i := f]> fs))
      else throw IndexOutOfRange
  | None => throw IndexOutOfRange
  end.

(** The loop [for i, pc := range err.stack { err.frames[i] =
    NewStackFrame(pc) }], from index [i] on. *)
Fixpoint StackFrames_loop (p : ptr) (i : nat) (stk : list uintptr) : M unit :=
  match stk with
  | [] => mret tt
  | pc :: rest =>
      f ← call_NewStackFrame pc;
      _ ← set_frame p i f;
      StackFrames_loop p (S i) rest
  end.

(** The method [StackFrames] of [*Error].  The result is the content of
    the slice [err.frames]. *)
Definition Error_StackFrames (p : ptr) : M (list StackFrame) :=
  err ← lift (fun s => deref (heap s) p);
  _ ← match frames err with
      | None =>
          _ ← set_frames p (Some (replicate (length (stack err)) zero_StackFrame));
          StackFrames_loop p 0 (stack err)
      | Some _ => mret tt
      end;
  err' ← lift (fun s => deref (heap s) p);
  mret (default [] (frames err')).

(** The buffer after [buf.WriteString(frame.String())] for every frame. *)
Definition write_frames (fs : list StackFrame) : string :=
  foldl (fun buf frame => buf +:+ StackFrame_String frame) "" fs.

(** The method [Stack] of [*Error]: the bytes written to the buffer. *)
Definition Error_Stack (p : ptr) : M string :=
  fs ← Error_StackFrames p;
  mret (write_frames fs).

(** The method [ErrorStack] of [*Error]. *)
Definition Error_ErrorStack (fuel : nat) (p : ptr) : M string :=
  t ← lift (fun s => Error_TypeName (heap s) p);
  m ← lift (fun s => Error_Error fuel (heap s) p);
  b ← Error_Stack p;
  mret ((((t +:+ " ") +:+ m) +:+ newline) +:+ b).

(** The state after the frames of the struct at [l] have been resolved. *)
Definition resolved_state (l : loc) (err : Error) (s : state) : state :=
  mk_state (MaxStackDepth s)
    (<[l := with_frames err (Some (map (NewStackFrame sym) (stack err)))]> (heap s))
    (resolved s ++ stack err).

End Frames.

(** ** Vocabulary of the statements *)

(** The error that the type switch of [New] and of [wrap] stores: an
    error is used directly, anything else goes through
    [fmt.Errorf("%v", e)]. *)
Definition as_error (e : iface) : error_val :=
  match e with
  | IErr ev => ev
  | INil => fmt_Errorf_v None
  | IOther v => fmt_Errorf_v (Some v)
  end.

(** The three statements that [New] and [wrap] share:
    [stack := make([]uintptr, MaxStackDepth)],
    [length := runtime.Callers(skip, stack[:])],
    [&Error{Err: err, stack: stack[:length]}]. *)
Definition capture (g : list uintptr) (skip : Z) (err : error_val) : M ptr :=
  depth ← lift (fun s => Ret (MaxStackDepth s));
  stack ← make_uintptr depth;
  let '(stack, length) := runtime_Callers g skip stack in
  alloc (mk_Error (Some err) (take length stack) None "").

(** The prefix that [WrapPrefix] stores. *)
Definition merged_prefix (pfx inner : string) : string :=
  if decide (inner <> "") then Sprintf_s_colon_s pfx inner else pfx.

(** The stack that a capture records. *)
Definition captured (depth : Z) (g : list uintptr) (skip : Z) : list uintptr :=
  take (Z.to_nat depth) (drop (Z.to_nat skip) g).

(** The state after [&Error{...}]. *)
Definition pushed (s : state) (e : Error) : state :=
  mk_state (MaxStackDepth s) (heap s ++ [e]) (resolved s).

(** The values that the [*Error] case of the type switch of [wrap] takes. *)
Definition is_PtrError (e : iface) : Prop := exists p, e = IErr (PtrError p).

(** An [Error] that wraps a [*Error] directly, and a store without one. *)
Definition wraps_Error (e : Error) : Prop := exists p, Err e = Some (PtrError p).

Definition no_nested (h : list Error) : Prop :=
  Forall (fun e => ~ wraps_Error e) h.

(** Two stores that agree on the underlying error and the prefix of every
    struct; stacks and frames may differ. *)
Definition same_messages (h h' : list Error) : Prop :=
  Forall2 (fun e e' => Err e = Err e' /\ prefix e = prefix e') h h'.

(** Stores in which every [Err] is a non-nil error that is either an
    error of another type whose method [Error] returns, or a [*Error] that
    points to a struct allocated earlier.  The constructors keep stores
    that way on the values of [valid_input]. *)
Definition wf_Err (l : loc) (e : error) : Prop :=
  match e with
  | Some (Plain pe) => exists msg, eError pe = Returns msg
  | Some (PtrError (Some l')) => (l' < l)%nat
  | _ => False
  end.

Definition wf_heap (h : list Error) : Prop :=
  forall l err, h !! l = Some err -> wf_Err l (Err err).

(** A value on which the accessors of the result do not panic: a [*Error]
    is not nil and is an address in the store, and the method [Error] of
    an error of another type returns. *)
Definition valid_input (h : list Error) (e : iface) : Prop :=
  (forall p, e = IErr (PtrError p) -> exists l, p = Some l /\ (l < length h)%nat) /\
  (forall pe, e = IErr (Plain pe) -> exists msg, eError pe = Returns msg).

(** The label that the formatted trace starts with: the fixed word
    ["panic"] for an uncaught panic, the name of the dynamic type of the
    underlying error otherwise. *)
Definition type_label (e : error) : string :=
  match e with
  | Some (Plain pe) =>
      match etype pe with
      | T_uncaughtPanic => "panic"
      | t => type_String t
      end
  | Some (PtrError _) => "*errors.Error"
  | None => ""
  end.

(** The frames that a trace of the struct shows: the stored ones, or one
    for every program counter of the stack when none is stored. *)
Definition shown_frames (sym : symtab) (err : Error) : list StackFrame :=
  match frames err with
  | Some fs => fs
  | None => map (NewStackFrame sym) (stack err)
  end.

(** The length of a recorded stack against the configured depth and the
    number of live frames left after the skipped ones: never above the
    depth, and exactly the depth when that many frames are live. *)
Definition depth_ok (depth : Z) (live : nat) (err : Error) : Prop :=
  (Z.of_nat (length (stack err)) <= depth)%Z /\
  ((depth <= Z.of_nat live)%Z -> Z.of_nat (length (stack err)) = depth).

(** ** Sample values *)

(** A goroutine stack of eight frames, as [runtime.Callers] would see it. *)
Definition sample_stack : list uintptr :=
  [4198400; 4198656; 4198912; 4199168; 4199424; 4199680; 4199936; 4200192]%Z.

(** An error of another package. *)
Definition sample_error : plain_error :=
  mk_plain (T_named "*fs.PathError") "open /tmp/x: permission denied".

(** A state with a depth of three frames. *)
Definition shallow_state : state := mk_state 3 [] [].

(** The state after [New] of [sample_error] in [shallow_state]. *)
Definition once_wrapped : state :=
  mk_state 3
    [mk_Error (Some (Plain sample_error)) [4198912; 4199168; 4199424]%Z None ""]
    [].

(** The state after [WrapPrefix] of [sample_error] with the prefix
    ["read config"] in [shallow_state]. *)
Definition prefixed_once : state :=
  mk_state 3
    [mk_Error (Some (Plain sample_error)) [4199168; 4199424; 4199680]%Z None "";
     mk_Error (Some (Plain sample_error)) [4199168; 4199424; 4199680]%Z None
       "read config"]
    [].

(** A symbol table that knows one program counter, and a one-line
    rendering of a frame. *)
Definition sample_symtab : symtab :=
  fun pc => if (pc =? 4198912)%Z then Some ("main.main", "/src/main.go", 12%Z) else None.

Definition sample_String (f : StackFrame) : string :=
  functionName f +:+ " (" +:+ fileName f +:+ ")" +:+ newline.

(** ** Interleaved calls of StackFrames *)

(** Several goroutines call [StackFrames] on one [Error] whose [frames]
    is nil.  The code takes no lock, so the calls interleave; the model
    interleaves them statement by statement, each statement atomic and
    every write visible at once.  Every run of the model is a run that the
    Go scheduler can produce.

    What the goroutines share is the field [err.frames] and the arrays
    that [make] allocated: the field is nil or a slice over one of the
    arrays.  [err.stack] is never written. *)
Record shared : Type := mk_shared {
  arrays : list (list StackFrame);
  field : option nat
}.

(** Where one goroutine is in [StackFrames]: before the test
    [err.frames == nil], before [err.frames = make(...)], before the
    iteration of the loop at index [i], before [return err.frames], after
    the return with the slice it got, and after its caller has read the
    elements of that slice. *)
Inductive point : Type :=
| AtCheck
| AtMake
| AtLoop (i : nat)
| AtReturn
| Returned (a : option nat)
| Observed (fs : list StackFrame).

Record config : Type := mk_config {
  mem : shared;
  threads : list point
}.

Section Interleaved.

Variable sym : symtab.
Variable stk : list uintptr.

(** One statement of one goroutine; [None] when it has nothing left to do
    (or indexes the nil slice, which panics). *)
Definition step_thread (m : shared) (pt : point) : option (shared * point) :=
  match pt with
  | AtCheck =>
      Some (m, match field m with None => AtMake | Some _ => AtReturn end)
  | AtMake =>
      Some (mk_shared (arrays m ++ [replicate (length stk) zero_StackFrame])
              (Some (length (arrays m))),
            AtLoop 0)
  | AtLoop i =>
      match stk !! i with
      | None => Some (m, AtReturn)
      | Some pc =>
          match field m with
          | Some a =>
              Some (mk_shared
                      (alter (fun arr => <[i := NewStackFrame sym pc]> arr) a (arrays m))
                      (field m),
                    AtLoop (S i))
          | None => None
          end
      end
  | AtReturn => Some (m, Returned (field m))
  | Returned a =>
      Some (m, Observed match a with
                        | Some a => default [] (arrays m !! a)
                        | None => []
                        end)
  | Observed _ => None
  end.

(** Goroutine [t] runs one statement. *)
Definition step_at (t : nat) (c : config) : config :=
  match threads c !! t with
  | Some pt =>
      match step_thread (mem c) pt with
      | Some (m', pt') => mk_config m' (<[t := pt']> (threads c))
      | None => c
      end
  | None => c
  end.

(** A schedule names the goroutine that runs next, step after step. *)
Definition run (sched : list nat) (c : config) : config :=
  foldl (fun c t => step_at t c) c sched.

(** [k] goroutines about to call [StackFrames] on an error whose frames
    are not resolved. *)
Definition init_config (k : nat) : config :=
  mk_config (mk_shared [] None) (replicate k AtCheck).

(** The entries below [i] of an array are the frames of the stack. *)
Definition correct_upto (i : nat) (arr : list StackFrame) : Prop :=
  forall j pc, (j < i)%nat -> stk !! j = Some pc ->
               arr !! j = Some (NewStackFrame sym pc).

(** How far the goroutine that made the current array has filled it. *)
Definition progress (pt : point) (arr : list StackFrame) : Prop :=
  match pt with
  | AtLoop i => correct_upto i arr
  | AtReturn | Returned _ | Observed _ => correct_upto (length stk) arr
  | AtCheck | AtMake => False
  end.

Definition before_make (pt : point) : Prop :=
  match pt with
  | AtCheck | AtMake => True
  | _ => False
  end.

Definition returned (pt : point) : Prop :=
  match pt with
  | Returned _ | Observed _ => True
  | _ => False
  end.

(** The invariant of the interleaved runs: while the field is nil no
    goroutine is past [make]; afterwards the field is a slice over an
    array of the length of the stack, and some goroutine past [make] has
    filled it as far as its own loop has come. *)
Definition race_inv (c : config) : Prop :=
  match field (mem c) with
  | None => forall t pt, threads c !! t = Some pt -> before_make pt
  | Some a =>
      exists arr t pt,
        arrays (mem c) !! a = Some arr /\
        length arr = length stk /\
        threads c !! t = Some pt /\
        progress pt arr
  end.

End Interleaved.

(** A schedule of two goroutines in which the second one returns between
    the [make] and the first write of the first one. *)
Definition early_reader : list nat := [0; 0; 1; 1; 1; 0; 0; 0; 0]%nat.

(** A schedule in which both goroutines pass the test before either runs
    [make], and the second runs [make] after the first has returned. *)
Definition late_maker : list nat := [0; 1; 0; 0; 0; 0; 0; 1; 1; 1; 1; 1]%nat.

(** The same schedule up to the [make] of the second goroutine. *)
Definition late_maker_reset : list nat := take 8 late_maker.

(** ** The package function Unwrap *)

Section PackageUnwrap.

(** The method [Unwrap() error] of an error of another type; nil when the
    type has no such method. *)
Variable foreign_Unwrap : plain_error -> error.

(** [Unwrap(err)], which is [errors.Unwrap] of the standard library: the
    result of the method [Unwrap] of [err] when its type has one that
    returns an error, and nil otherwise.  The nil interface has no
    method. *)
Definition Unwrap (h : list Error) (err : error) : outcome error :=
  match err with
  | None => Ret None
  | Some (PtrError p) => Error_Unwrap h p
  | Some (Plain pe) => Ret (foreign_Unwrap pe)
  end.

End PackageUnwrap.

(** ** Callers of the constructors *)

(** [WrapPrefix] applied again and again, each time to the result of the
    call before, with the prefixes of the list in turn and skip 0. *)
Fixpoint wrap_prefixes (g : list uintptr) (pfxs : list string) (e : iface)
  : M iface :=
  match pfxs with
  | [] => mret e
  | pfx :: rest =>
      r ← WrapPrefix g e pfx 0%Z;
      wrap_prefixes g rest (to_iface r)
  end.

(** The message after those calls: every prefix with [": "] goes in front
    of what was there. *)
Definition chained (pfxs : list string) (m : string) : string :=
  foldl (fun acc pfx => pfx +:+ ": " +:+ acc) m pfxs.

(** An [int] of the platform. *)
Definition is_int (z : Z) : Prop := (- 2 ^ 63 <= z < 2 ^ 63)%Z.

(** ** Calls of StackFrames after the frames are stored *)

Section Settled.

Variable sym : symtab.
Variable stk : list uintptr.

(** The field holds the slice over array [a], the array has every frame,
    and no goroutine is between the test and [make]. *)
Definition settled (a : nat) (c : config) : Prop :=
  field (mem c) = Some a /\
  arrays (mem c) !! a = Some (map (NewStackFrame sym) stk) /\
  forall t, threads c !! t <> Some AtMake.

(** A goroutine that can only come out with every frame: it has not
    returned yet, or it has returned the slice over [a], or it has read
    every frame. *)
Definition sees_all (a : nat) (pt : point) : Prop :=
  match pt with
  | AtCheck | AtLoop _ | AtReturn => True
  | AtMake => False
  | Returned r => r = Some a
  | Observed fs => fs = map (NewStackFrame sym) stk
  end.

End Settled.

(** ** Counting the arrays of the interleaved calls *)

(** 1 for a goroutine that has not run [make] yet and may still do so. *)
Definition may_make (pt : point) : nat :=
  match pt with
  | AtCheck | AtMake => 1
  | _ => 0
  end.

Definition pending_makes (ts : list point) : nat :=
  foldr (fun pt n => (may_make pt + n)%nat) 0%nat ts.

(** * Properties *)

(** ** Running the monad *)

Lemma bind_Ret {A B} (m : M A) (k : A -> M B) (s s' : state) (a : A) :
  m s = Ret (a, s') -> (x ← m; k x) s = k a s'.
Proof. intros E. unfold mbind, M_bind, bind. now rewrite E. Qed.

Lemma lift_Ret {A} (f : state -> outcome A) (s : state) (a : A) :
  f s = Ret a -> lift f s = Ret (a, s).
Proof. intros E. unfold lift. now rewrite E. Qed.

Lemma append_assoc (a b c : string) : (a +:+ b) +:+ c = a +:+ (b +:+ c).
Proof.
  induction a as [|x a IH]; [reflexivity |].
  change (String x ((a +:+ b) +:+ c) = String x (a +:+ b +:+ c)).
  now rewrite IH.
Qed.

Lemma append_nonempty (a b : string) : a +:+ ": " +:+ b <> "".
Proof. destruct a; discriminate. Qed.

(** ** The capture *)

(** What [runtime.Callers] leaves in [stack[:length]]: the live stack after
    the skipped entries, cut at the length of the buffer. *)
Lemma Callers_slice (g : list uintptr) (skip : Z) (buf : list uintptr) :
  take (runtime_Callers g skip buf).2 (runtime_Callers g skip buf).1
  = take (length buf) (drop (Z.to_nat skip) g).
Proof. unfold runtime_Callers. simpl. apply take_app_length. Qed.

Lemma capture_Ret (g : list uintptr) (skip : Z) (err : error_val) (s : state) :
  (0 <= MaxStackDepth s)%Z ->
  capture g skip err s
  = Ret (Some (length (heap s)),
         pushed s (mk_Error (Some err) (captured (MaxStackDepth s) g skip) None "")).
Proof.
  intros Hd. unfold capture.
  erewrite bind_Ret by (apply lift_Ret; reflexivity).
  unfold make_uintptr.
  destruct (Z.ltb_spec (MaxStackDepth s) 0) as [Hlt | _]; [lia |].
  erewrite bind_Ret by reflexivity.
  pose proof (Callers_slice g skip (replicate (Z.to_nat (MaxStackDepth s)) 0%Z)) as Hc.
  destruct (runtime_Callers g skip _) as [buf' n]. simpl in Hc.
  rewrite Hc, length_replicate. reflexivity.
Qed.

(** A negative [MaxStackDepth] makes the capture panic in [make]. *)
Lemma capture_negative (g : list uintptr) (skip : Z) (err : error_val) (s : state) :
  (MaxStackDepth s < 0)%Z ->
  capture g skip err s = Panic MakesliceLenOutOfRange.
Proof.
  intros Hd. unfold capture.
  erewrite bind_Ret by (apply lift_Ret; reflexivity).
  unfold make_uintptr.
  destruct (Z.ltb_spec (MaxStackDepth s) 0) as [_ | Hge]; [reflexivity | lia].
Qed.

Lemma length_captured (depth : Z) (g : list uintptr) (skip : Z) :
  length (captured depth g skip)
  = Nat.min (Z.to_nat depth) (length g - Z.to_nat skip).
Proof. unfold captured. now rewrite length_take, length_drop. Qed.

(** [New] and [wrap] through the statements they share. *)
Lemma New_capture (g : list uintptr) (e : iface) (s : state) :
  New g e s = (p ← capture g 2 (as_error e); mret (Some (PtrError p))) s.
Proof.
  unfold New, capture, mbind, M_bind, bind, lift, make_uintptr. simpl.
  destruct (MaxStackDepth s <? 0)%Z; reflexivity.
Qed.

Lemma wrap_fresh (g : list uintptr) (e : iface) (skip : Z) (s : state) :
  ~ is_PtrError e ->
  wrap g e skip s = capture g (int_add 3 skip) (as_error e) s.
Proof.
  intros Hn. destruct e as [|[p|pe]|v]; try reflexivity.
  exfalso. apply Hn. now exists p.
Qed.

Lemma Wrap_not_nil (g : list uintptr) (e : iface) (skip : Z) (s : state) :
  e <> INil ->
  Wrap g e skip s = (p ← wrap g e skip; mret (Some (PtrError p))) s.
Proof. intros Hnil. destruct e; [congruence | reflexivity | reflexivity]. Qed.

Lemma WrapPrefix_not_nil (g : list uintptr) (e : iface) (pfx : string) (skip : Z)
    (s : state) :
  e <> INil ->
  WrapPrefix g e pfx skip s
  = (p ← wrap g e skip;
     err ← lift (fun s => deref (heap s) p);
     q ← alloc (mk_Error (Err err) (stack err) None (merged_prefix pfx (prefix err)));
     mret (Some (PtrError q))) s.
Proof. intros Hnil. destruct e; [congruence | reflexivity | reflexivity]. Qed.

Lemma classic_ptr (e : iface) : (exists p, e = IErr (PtrError p)) \/ ~ is_PtrError e.
Proof.
  destruct e as [|[p|pe]|v]; [right | left; now exists p | right | right];
    intros [q Hq]; discriminate.
Qed.

Lemma nil_or_not (e : iface) : e = INil \/ e <> INil.
Proof. destruct e; [now left | now right | now right]. Qed.

Lemma wrap_Ret (g : list uintptr) (e : iface) (skip : Z) (s : state) :
  ~ is_PtrError e ->
  (0 <= MaxStackDepth s)%Z ->
  wrap g e skip s
  = Ret (Some (length (heap s)),
         pushed s (mk_Error (Some (as_error e))
                     (captured (MaxStackDepth s) g (int_add 3 skip)) None "")).
Proof. intros Hn Hd. rewrite wrap_fresh by assumption. now apply capture_Ret. Qed.

Lemma New_Ret (g : list uintptr) (e : iface) (s : state) :
  (0 <= MaxStackDepth s)%Z ->
  New g e s
  = Ret (Some (PtrError (Some (length (heap s)))),
         pushed s (mk_Error (Some (as_error e))
                     (captured (MaxStackDepth s) g 2) None "")).
Proof.
  intros Hd. rewrite New_capture. erewrite bind_Ret by (now apply capture_Ret).
  reflexivity.
Qed.

Lemma Wrap_PtrError (g : list uintptr) (p : ptr) (skip : Z) (s : state) :
  Wrap g (IErr (PtrError p)) skip s = Ret (Some (PtrError p), s).
Proof. reflexivity. Qed.

Lemma Wrap_fresh_Ret (g : list uintptr) (e : iface) (skip : Z) (s : state) :
  e <> INil -> ~ is_PtrError e ->
  (0 <= MaxStackDepth s)%Z ->
  Wrap g e skip s
  = Ret (Some (PtrError (Some (length (heap s)))),
         pushed s (mk_Error (Some (as_error e))
                     (captured (MaxStackDepth s) g (int_add 3 skip)) None "")).
Proof.
  intros Hnil Hn Hd. rewrite Wrap_not_nil by assumption.
  erewrite bind_Ret by (now apply wrap_Ret). reflexivity.
Qed.

(** ** Wrapping nil *)

(** C5: wrapping nil is a no-op that produces nil.  For every skip and
    every prefix, [Wrap(nil, skip)] and [WrapPrefix(nil, prefix, skip)]
    return the nil error, leave the state as it was, and do not panic. *)
Theorem Wrap_nil (g : list uintptr) (pfx : string) (skip : Z) (s : state) :
  Wrap g INil skip s = Ret (None, s) /\
  WrapPrefix g INil pfx skip s = Ret (None, s).
Proof. split; reflexivity. Qed.

(** ** Wrapping a wrapped error *)

(** C1: [Wrap] is idempotent on wrapped errors.  Given a [*Error], [Wrap]
    returns that very pointer and changes nothing in the state, so no stack
    is captured; and, [MaxStackDepth] not being negative, [Wrap(e, 0)]
    returns a value that [Wrap] returns again as it is, in the same
    state. *)
Theorem Wrap_idempotent (g g' : list uintptr) (e : iface) (skip : Z) (s : state) :
  (forall p, Wrap g (IErr (PtrError p)) skip s = Ret (Some (PtrError p), s)) /\
  ((0 <= MaxStackDepth s)%Z ->
   exists r s',
     Wrap g e 0 s = Ret (r, s') /\
     Wrap g' (to_iface r) 0 s' = Ret (r, s')).
Proof.
  split; [intros p; reflexivity |].
  intros Hd. destruct e as [|[p|pe]|v].
  - exists None, s. split; reflexivity.
  - exists (Some (PtrError p)), s. split; reflexivity.
  - eexists _, _. split; [apply Wrap_fresh_Ret; try done |].
    + intros [p Hp]. discriminate.
    + reflexivity.
  - eexists _, _. split; [apply Wrap_fresh_Ret; try done |].
    + intros [p Hp]. discriminate.
    + reflexivity.
Qed.

Lemma Wrap_idempotent_witness :
  exists r s',
    Wrap sample_stack (IErr (Plain sample_error)) 0 init_state = Ret (r, s') /\
    Wrap (drop 1 sample_stack) (to_iface r) 0 s' = Ret (r, s').
Proof.
  apply (Wrap_idempotent sample_stack (drop 1 sample_stack)
           (IErr (Plain sample_error)) 0 init_state).
  simpl. unfold MaxStackDepth_default. lia.
Defined.

(** ** The underlying error *)

(** C3: for an error [e] that is not nil and not a [*Error], and for any
    skip, [Wrap(e, skip)] returns a [*Error] whose [Unwrap] method returns
    [e] ([MaxStackDepth] not being negative, or [make] panics). *)
Theorem Wrap_Unwrap (g : list uintptr) (pe : plain_error) (skip : Z) (s : state) :
  (0 <= MaxStackDepth s)%Z ->
  exists p s',
    Wrap g (IErr (Plain pe)) skip s = Ret (Some (PtrError p), s') /\
    Error_Unwrap (heap s') p = Ret (Some (Plain pe)).
Proof.
  intros Hd. eexists _, _. split.
  - apply Wrap_fresh_Ret; [discriminate | | assumption].
    intros [p Hp]. discriminate.
  - unfold Error_Unwrap, deref, pushed. simpl.
    rewrite list_lookup_middle by reflexivity. reflexivity.
Qed.

Lemma Wrap_Unwrap_witness :
  exists p s',
    Wrap sample_stack (IErr (Plain sample_error)) 1 shallow_state
    = Ret (Some (PtrError p), s') /\
    Error_Unwrap (heap s') p = Ret (Some (Plain sample_error)).
Proof.
  apply (Wrap_Unwrap sample_stack sample_error 1 shallow_state).
  simpl. lia.
Defined.

(** ** New on nil *)

(** C10: [New] does not propagate nil.  [New(nil)] returns a pointer to a
    new [Error] whose underlying error is an [errorString] with the message
    ["<nil>"] and whose stack is captured at the call, while [Wrap(nil)]
    returns nil ([MaxStackDepth] not being negative, or [make] panics). *)
Theorem New_nil (g : list uintptr) (skip : Z) (s : state) :
  (0 <= MaxStackDepth s)%Z ->
  New g INil s
  = Ret (Some (PtrError (Some (length (heap s)))),
         pushed s (mk_Error (Some (Plain (mk_plain T_errorString "<nil>")))
                     (captured (MaxStackDepth s) g 2) None "")) /\
  Wrap g INil skip s = Ret (None, s).
Proof. intros Hd. split; [now apply New_Ret | reflexivity]. Qed.

Lemma New_nil_witness :
  New sample_stack INil shallow_state
  = Ret (Some (PtrError (Some 0%nat)),
         mk_state 3
           [mk_Error (Some (Plain (mk_plain T_errorString "<nil>")))
              [4198912; 4199168; 4199424]%Z None ""] []) /\
  Wrap sample_stack INil 0 shallow_state = Ret (None, shallow_state).
Proof.
  apply (New_nil sample_stack 0 shallow_state). simpl. lia.
Defined.

(** ** The depth of a captured stack *)

Lemma depth_ok_captured (depth : Z) (g : list uintptr) (skip : Z) (e : error) (pfx : string) :
  (0 <= depth)%Z ->
  depth_ok depth (length (drop (Z.to_nat skip) g))
    (mk_Error e (captured depth g skip) None pfx).
Proof.
  intros Hd. unfold depth_ok. simpl. rewrite length_captured, length_drop.
  split; [lia | intros Hl; lia].
Qed.

(** C6: the stack of an [Error] created by [New] or by [wrap] is the live
    stack after the skipped frames, cut at [MaxStackDepth]: it is never
    longer than [MaxStackDepth]; when at least that many frames are live
    after the skipped ones it has exactly [MaxStackDepth] entries, the
    first ones; and the capture returns normally however deep the live
    stack is ([MaxStackDepth] not being negative, or [make] panics). *)
Theorem stack_depth_bound (g : list uintptr) (e : iface) (skip : Z) (s : state) :
  (0 <= MaxStackDepth s)%Z ->
  (exists err,
     New g e s = Ret (Some (PtrError (Some (length (heap s)))), pushed s err) /\
     stack err = take (Z.to_nat (MaxStackDepth s)) (drop 2 g) /\
     depth_ok (MaxStackDepth s) (length (drop 2 g)) err) /\
  (~ is_PtrError e ->
   exists err,
     wrap g e skip s = Ret (Some (length (heap s)), pushed s err) /\
     stack err
     = take (Z.to_nat (MaxStackDepth s)) (drop (Z.to_nat (int_add 3 skip)) g) /\
     depth_ok (MaxStackDepth s)
       (length (drop (Z.to_nat (int_add 3 skip)) g)) err).
Proof.
  intros Hd. split.
  - eexists. split; [now apply New_Ret |]. split; [reflexivity |].
    now apply (depth_ok_captured _ g 2).
  - intros Hn. eexists. split; [now apply wrap_Ret |]. split; [reflexivity |].
    now apply depth_ok_captured.
Qed.

Lemma stack_depth_bound_witness :
  (exists err,
     New sample_stack (IErr (Plain sample_error)) shallow_state
     = Ret (Some (PtrError (Some 0%nat)), pushed shallow_state err) /\
     stack err = [4198912; 4199168; 4199424]%Z /\
     depth_ok 3 6 err) /\
  (~ is_PtrError (IErr (Plain sample_error)) ->
   exists err,
     wrap sample_stack (IErr (Plain sample_error)) 0 shallow_state
     = Ret (Some 0%nat, pushed shallow_state err) /\
     stack err = [4199168; 4199424; 4199680]%Z /\
     depth_ok 3 5 err).
Proof.
  apply (stack_depth_bound sample_stack (IErr (Plain sample_error)) 0 shallow_state).
  simpl. lia.
Defined.

(** ** The message accessor *)

Lemma Error_Error_S (fuel : nat) (h : list Error) (p : ptr) :
  Error_Error (S fuel) h p
  = (err ← deref h p;
     msg ← underlying_message fuel h (Err err);
     Ret (prefixed (prefix err) msg)).
Proof. reflexivity. Qed.

Lemma Error_Error_at (fuel : nat) (h : list Error) (l : loc) (err : Error) (msg : string) :
  h !! l = Some err ->
  underlying_message fuel h (Err err) = Ret msg ->
  Error_Error (S fuel) h (Some l) = Ret (prefixed (prefix err) msg).
Proof.
  intros Hl Hm. rewrite Error_Error_S. unfold deref. rewrite Hl. simpl.
  rewrite Hm. reflexivity.
Qed.

Lemma Error_Error_inv (fuel : nat) (h : list Error) (p : ptr) (m : string) :
  Error_Error fuel h p = Ret m ->
  exists fuel' l err msg,
    fuel = S fuel' /\ p = Some l /\ h !! l = Some err /\
    underlying_message fuel' h (Err err) = Ret msg /\
    m = prefixed (prefix err) msg.
Proof.
  destruct fuel as [|fuel']; [discriminate |].
  rewrite Error_Error_S. unfold deref.
  destruct p as [l|]; [| discriminate].
  destruct (h !! l) as [err|] eqn:Hl; [| discriminate]. simpl.
  destruct (underlying_message fuel' h (Err err)) as [msg| |] eqn:Hm;
    try discriminate.
  simpl. intros [= <-]. now exists fuel', l, err, msg.
Qed.

(** More fuel and a larger store do not change a message. *)
Lemma Error_Error_stable (fuel : nat) :
  forall (h h' : list Error) (p : ptr) (m : string),
    Error_Error fuel h p = Ret m ->
    Error_Error (S fuel) (h ++ h') p = Ret m.
Proof.
  induction fuel as [|fuel IH]; intros h h' p m Hm; [discriminate |].
  apply Error_Error_inv in Hm
    as (fuel' & l & err & msg & [= <-] & -> & Hl & Hu & ->).
  apply Error_Error_at; [now apply lookup_app_l_Some |].
  destruct (Err err) as [[q|pe]|]; simpl in *; [| assumption | discriminate].
  now apply IH.
Qed.

Lemma underlying_message_stable (fuel : nat) (h h' : list Error) (e : error) (m : string) :
  underlying_message fuel h e = Ret m ->
  underlying_message (S fuel) (h ++ h') e = Ret m.
Proof.
  destruct e as [[q|pe]|]; simpl; [| trivial | discriminate].
  apply Error_Error_stable.
Qed.

(** ** Wrapping with a prefix *)

Lemma WrapPrefix_PtrError (g : list uintptr) (l : loc) (inner : Error)
    (pfx : string) (skip : Z) (s : state) :
  heap s !! l = Some inner ->
  WrapPrefix g (IErr (PtrError (Some l))) pfx skip s
  = Ret (Some (PtrError (Some (length (heap s)))),
         pushed s (mk_Error (Err inner) (stack inner) None
                     (merged_prefix pfx (prefix inner)))).
Proof.
  intros Hl. unfold WrapPrefix, wrap.
  erewrite bind_Ret by reflexivity.
  erewrite bind_Ret by (apply lift_Ret; unfold deref; rewrite Hl; reflexivity).
  reflexivity.
Qed.

Lemma WrapPrefix_fresh (g : list uintptr) (e : iface) (pfx : string) (skip : Z)
    (s : state) :
  e <> INil -> ~ is_PtrError e ->
  (0 <= MaxStackDepth s)%Z ->
  let first := mk_Error (Some (as_error e))
                 (captured (MaxStackDepth s) g (int_add 3 skip)) None "" in
  WrapPrefix g e pfx skip s
  = Ret (Some (PtrError (Some (S (length (heap s))))),
         pushed (pushed s first)
           (mk_Error (Some (as_error e))
              (captured (MaxStackDepth s) g (int_add 3 skip)) None pfx)).
Proof.
  intros Hnil Hn Hd first.
  rewrite WrapPrefix_not_nil by assumption.
  erewrite bind_Ret by (now apply wrap_Ret).
  erewrite bind_Ret.
  2:{ apply lift_Ret. unfold deref, pushed. simpl.
      rewrite list_lookup_middle by reflexivity. reflexivity. }
  simpl. unfold mbind, M_bind, bind, alloc, pushed. simpl.
  rewrite length_app. simpl. rewrite Nat.add_1_r. reflexivity.
Qed.

Lemma prefixed_nonempty (pfx msg : string) :
  pfx <> "" -> prefixed pfx msg = pfx +:+ ": " +:+ msg.
Proof. intros Hp. unfold prefixed. now destruct (decide (pfx <> "")). Qed.

Lemma prefixed_merged (pfx inner msg : string) :
  pfx <> "" ->
  prefixed (merged_prefix pfx inner) msg = pfx +:+ ": " +:+ prefixed inner msg.
Proof.
  intros Hp. unfold merged_prefix.
  destruct (decide (inner <> "")) as [Hi | Hi].
  - rewrite prefixed_nonempty by apply append_nonempty.
    rewrite (prefixed_nonempty inner) by assumption.
    unfold Sprintf_s_colon_s. now rewrite !append_assoc.
  - destruct (decide (inner = "")) as [-> | Hne]; [| contradiction].
    now rewrite prefixed_nonempty.
Qed.

(** One [WrapPrefix] with a prefix that is not empty puts that prefix and
    [": "] in front of the message of the value. *)
Lemma WrapPrefix_message (g : list uintptr) (e : iface) (pfx : string) (skip : Z)
    (s : state) (fuel : nat) (m : string) :
  e <> INil -> pfx <> "" ->
  (0 <= MaxStackDepth s)%Z ->
  message_of fuel (heap s) e = Ret m ->
  exists p s',
    WrapPrefix g e pfx skip s = Ret (Some (PtrError p), s') /\
    MaxStackDepth s' = MaxStackDepth s /\
    Error_Error (S fuel) (heap s') p = Ret (pfx +:+ ": " +:+ m).
Proof.
  intros Hnil Hp Hd Hm.
  destruct (classic_ptr e) as [[q ->] | Hn].
  - simpl in Hm.
    apply Error_Error_inv in Hm
      as (fuel' & l & inner & msg & -> & -> & Hl & Hu & ->).
    eexists _, _. split; [apply (WrapPrefix_PtrError _ _ inner); exact Hl |].
    split; [reflexivity |].
    unfold pushed. cbn [heap].
    erewrite Error_Error_at;
      [ | now apply list_lookup_middle
        | cbn [Err]; apply underlying_message_stable; exact Hu ].
    cbn [prefix]. f_equal. now apply prefixed_merged.
  - eexists _, _. split; [apply WrapPrefix_fresh; assumption |].
    split; [reflexivity |].
    unfold pushed. cbn [heap].
    assert (underlying_message fuel (heap s) (Some (as_error e)) = Ret m) as Hu.
    { destruct e as [|[q|pe]|v]; simpl in *;
        [congruence | exfalso; apply Hn; now exists q | assumption | assumption]. }
    erewrite Error_Error_at;
      [ | apply list_lookup_middle; rewrite length_app; simpl; lia
        | cbn [Err]; destruct e as [|[q|pe]|v]; simpl in *;
          [exact Hu | exfalso; apply Hn; now exists q | exact Hu | exact Hu] ].
    cbn [prefix]. now rewrite prefixed_nonempty.
Qed.

(** C4: prefixes compose, stacks do not.  [WrapPrefix] of a [*Error] that
    has a prefix returns a new [Error] with the same underlying error and
    the same stack, whose prefix is the new prefix, [": "], and the old
    prefix.  And two [WrapPrefix] in a row, with ["B"] and then with ["A"]
    (any two prefixes that are not empty), give an error whose message is
    ["A: B: "] followed by the message of the value that was wrapped, when
    that value is not nil and has a message. *)
Theorem WrapPrefix_prepends (g g' : list uintptr) (e : iface) (a b : string)
    (skip : Z) (s : state) (fuel : nat) (m : string) :
  (forall l inner,
     heap s !! l = Some inner -> prefix inner <> "" ->
     WrapPrefix g (IErr (PtrError (Some l))) a skip s
     = Ret (Some (PtrError (Some (length (heap s)))),
            pushed s (mk_Error (Err inner) (stack inner) None
                        (a +:+ ": " +:+ prefix inner)))) /\
  (e <> INil -> a <> "" -> b <> "" ->
   (0 <= MaxStackDepth s)%Z ->
   message_of fuel (heap s) e = Ret m ->
   exists p s',
     (r ← WrapPrefix g e b 0; WrapPrefix g' (to_iface r) a 0) s
     = Ret (Some (PtrError p), s') /\
     Error_Error (S (S fuel)) (heap s') p = Ret (a +:+ ": " +:+ b +:+ ": " +:+ m)).
Proof.
  split.
  - intros l inner Hl Hp. rewrite (WrapPrefix_PtrError _ _ inner) by exact Hl.
    unfold merged_prefix. now destruct (decide (prefix inner <> "")).
  - intros Hnil Ha Hb Hd Hm.
    destruct (WrapPrefix_message g e b 0 s fuel m Hnil Hb Hd Hm)
      as (p1 & s1 & H1 & Hd1 & Hm1).
    destruct (WrapPrefix_message g' (IErr (PtrError p1)) a 0 s1 (S fuel)
                (b +:+ ": " +:+ m)) as (p2 & s2 & H2 & _ & Hm2);
      [discriminate | assumption | lia | exact Hm1 |].
    exists p2, s2. split; [| exact Hm2].
    erewrite bind_Ret by exact H1. exact H2.
Qed.

Lemma WrapPrefix_prepends_witness :
  WrapPrefix sample_stack (IErr (PtrError (Some 1%nat))) "A" 0 prefixed_once
  = Ret (Some (PtrError (Some 2%nat)),
         pushed prefixed_once
           (mk_Error (Some (Plain sample_error))
              [4199168; 4199424; 4199680]%Z None "A: read config")) /\
  exists p s',
    (r ← WrapPrefix sample_stack (IErr (Plain sample_error)) "B" 0;
     WrapPrefix (drop 1 sample_stack) (to_iface r) "A" 0) prefixed_once
    = Ret (Some (PtrError p), s') /\
    Error_Error 2 (heap s') p = Ret ("A: B: open /tmp/x: permission denied").
Proof.
  destruct (WrapPrefix_prepends sample_stack (drop 1 sample_stack)
              (IErr (Plain sample_error)) "A" "B" 0 prefixed_once 0
              "open /tmp/x: permission denied") as [H1 H2].
  split.
  - apply (H1 1%nat (mk_Error (Some (Plain sample_error))
                       [4199168; 4199424; 4199680]%Z None "read config"));
      [reflexivity | discriminate].
  - apply H2; [discriminate | discriminate | discriminate | simpl; lia | reflexivity].
Defined.

(** ** No [Error] directly inside an [Error] *)

Lemma bind_inv {A B} (m : M A) (k : A -> M B) (s s2 : state) (b : B) :
  (x ← m; k x) s = Ret (b, s2) ->
  exists a s1, m s = Ret (a, s1) /\ k a s1 = Ret (b, s2).
Proof.
  unfold mbind, M_bind, bind. destruct (m s) as [[a s1]| |]; try discriminate.
  intros H. now exists a, s1.
Qed.

Lemma lift_inv {A} (f : state -> outcome A) (s s' : state) (a : A) :
  lift f s = Ret (a, s') -> f s = Ret a /\ s' = s.
Proof.
  unfold lift. destruct (f s) as [x| |]; try discriminate.
  intros [= -> ->]. now split.
Qed.

Lemma capture_inv (g : list uintptr) (skip : Z) (err : error_val) (s s' : state) (p : ptr) :
  capture g skip err s = Ret (p, s') ->
  p = Some (length (heap s)) /\
  s' = pushed s (mk_Error (Some err) (captured (MaxStackDepth s) g skip) None "").
Proof.
  destruct (Z.lt_ge_cases (MaxStackDepth s) 0) as [Hlt | Hge].
  - rewrite capture_negative by assumption. discriminate.
  - rewrite capture_Ret by assumption. intros [= <- <-]. now split.
Qed.

Lemma as_error_Plain (e : iface) :
  ~ is_PtrError e -> exists pe, as_error e = Plain pe.
Proof.
  intros Hn. destruct e as [|[p|pe]|v]; simpl; eauto.
  exfalso. apply Hn. now exists p.
Qed.

Lemma no_nested_pushed (s : state) (e : Error) :
  no_nested (heap s) -> ~ wraps_Error e -> no_nested (heap (pushed s e)).
Proof.
  intros Hh He. unfold no_nested, pushed. simpl.
  apply Forall_app. split; [assumption | now constructor].
Qed.

Lemma capture_no_nested (g : list uintptr) (skip : Z) (pe : plain_error)
    (s s' : state) (p : ptr) :
  no_nested (heap s) ->
  capture g skip (Plain pe) s = Ret (p, s') ->
  no_nested (heap s').
Proof.
  intros Hh Hc. apply capture_inv in Hc as [_ ->].
  apply no_nested_pushed; [assumption |]. intros [q Hq]. discriminate.
Qed.

Lemma wrap_no_nested (g : list uintptr) (e : iface) (skip : Z) (s s' : state) (p : ptr) :
  no_nested (heap s) ->
  wrap g e skip s = Ret (p, s') ->
  no_nested (heap s').
Proof.
  intros Hh Hw. destruct (classic_ptr e) as [[q ->] | Hn].
  - injection Hw as _ <-. assumption.
  - rewrite wrap_fresh in Hw by assumption.
    destruct (as_error_Plain e Hn) as [pe Hpe]. rewrite Hpe in Hw.
    eapply capture_no_nested; eassumption.
Qed.

Lemma Wrap_no_nested (g : list uintptr) (e : iface) (skip : Z) (s s' : state) (r : error) :
  no_nested (heap s) ->
  Wrap g e skip s = Ret (r, s') ->
  no_nested (heap s').
Proof.
  intros Hh HW.
  destruct (nil_or_not e) as [-> | Hnil]; [injection HW as _ <-; assumption |].
  rewrite Wrap_not_nil in HW by assumption. apply bind_inv in HW as (p & s1 & Hw & Hr).
  injection Hr as _ <-. eapply wrap_no_nested; eassumption.
Qed.

Lemma WrapPrefix_no_nested (g : list uintptr) (e : iface) (pfx : string) (skip : Z)
    (s s' : state) (r : error) :
  no_nested (heap s) ->
  WrapPrefix g e pfx skip s = Ret (r, s') ->
  no_nested (heap s').
Proof.
  intros Hh HW.
  destruct (nil_or_not e) as [-> | Hnil]; [injection HW as _ <-; assumption |].
  rewrite WrapPrefix_not_nil in HW by assumption.
  apply bind_inv in HW as (p & s1 & Hw & HW).
  apply bind_inv in HW as (err & s2 & Hde & HW).
  apply lift_inv in Hde as [Hde ->].
  apply bind_inv in HW as (q & s3 & Ha & Hr).
  injection Hr as _ <-. injection Ha as _ <-.
  pose proof (wrap_no_nested _ _ _ _ _ _ Hh Hw) as H1.
  unfold no_nested in *. simpl. apply Forall_app. split; [assumption |].
  constructor; [| constructor].
  unfold deref in Hde. destruct p as [l|]; [| discriminate].
  destruct (heap s1 !! l) as [x|] eqn:Hl; [| discriminate].
  injection Hde as ->.
  rewrite Forall_lookup in H1. specialize (H1 l err Hl).
  intros [q' Hq']. apply H1. now exists q'.
Qed.

Lemma New_no_nested (g : list uintptr) (e : iface) (s s' : state) (r : error) :
  ~ is_PtrError e ->
  no_nested (heap s) ->
  New g e s = Ret (r, s') ->
  no_nested (heap s').
Proof.
  intros Hn Hh HN. rewrite New_capture in HN.
  apply bind_inv in HN as (p & s1 & Hc & Hr). injection Hr as _ <-.
  destruct (as_error_Plain e Hn) as [pe Hpe]. rewrite Hpe in Hc.
  eapply capture_no_nested; eassumption.
Qed.

(** C2, as the code has it: [Wrap] and [WrapPrefix] never put a [*Error]
    inside an [Error], and neither does [New] on a value that is not a
    [*Error].  Wrapping a [*Error] keeps its stack and its underlying
    error: [Wrap] returns the pointer itself, [WrapPrefix] a new [Error]
    with the same two fields and the prefixes merged.  [New] on a [*Error]
    captures a new stack and stores the pointer as the underlying error. *)
Theorem no_nested_preserved (g : list uintptr) (e : iface) (pfx : string) (skip : Z)
    (s : state) :
  no_nested (heap s) ->
  (forall r s', Wrap g e skip s = Ret (r, s') -> no_nested (heap s')) /\
  (forall r s', WrapPrefix g e pfx skip s = Ret (r, s') -> no_nested (heap s')) /\
  (~ is_PtrError e ->
   forall r s', New g e s = Ret (r, s') -> no_nested (heap s')) /\
  (forall l inner,
     heap s !! l = Some inner ->
     Wrap g (IErr (PtrError (Some l))) skip s = Ret (Some (PtrError (Some l)), s) /\
     WrapPrefix g (IErr (PtrError (Some l))) pfx skip s
     = Ret (Some (PtrError (Some (length (heap s)))),
            pushed s (mk_Error (Err inner) (stack inner) None
                        (merged_prefix pfx (prefix inner))))) /\
  (forall p,
     (0 <= MaxStackDepth s)%Z ->
     New g (IErr (PtrError p)) s
     = Ret (Some (PtrError (Some (length (heap s)))),
            pushed s (mk_Error (Some (PtrError p))
                        (captured (MaxStackDepth s) g 2) None ""))).
Proof.
  intros Hh. repeat split.
  - intros r s'. now apply Wrap_no_nested.
  - intros r s'. now apply WrapPrefix_no_nested.
  - intros Hn r s'. now apply New_no_nested.
  - now apply WrapPrefix_PtrError.
  - intros p Hd. now apply New_Ret.
Qed.

Lemma no_nested_once_wrapped : no_nested (heap once_wrapped).
Proof.
  unfold no_nested, once_wrapped. simpl.
  constructor; [| constructor]. intros [p Hp]. discriminate.
Qed.

Lemma no_nested_preserved_witness :
  (forall r s', Wrap sample_stack (IErr (PtrError (Some 0%nat))) 0 once_wrapped
                = Ret (r, s') -> no_nested (heap s')) /\
  (forall r s', WrapPrefix sample_stack (IErr (PtrError (Some 0%nat))) "read config" 0
                  once_wrapped = Ret (r, s') -> no_nested (heap s')) /\
  (~ is_PtrError (IErr (PtrError (Some 0%nat))) ->
   forall r s', New sample_stack (IErr (PtrError (Some 0%nat))) once_wrapped = Ret (r, s') ->
                no_nested (heap s')) /\
  (forall l inner,
     heap once_wrapped !! l = Some inner ->
     Wrap sample_stack (IErr (PtrError (Some l))) 0 once_wrapped
     = Ret (Some (PtrError (Some l)), once_wrapped) /\
     WrapPrefix sample_stack (IErr (PtrError (Some l))) "read config" 0 once_wrapped
     = Ret (Some (PtrError (Some (length (heap once_wrapped)))),
            pushed once_wrapped (mk_Error (Err inner) (stack inner) None
                                   (merged_prefix "read config" (prefix inner))))) /\
  (forall p,
     (0 <= MaxStackDepth once_wrapped)%Z ->
     New sample_stack (IErr (PtrError p)) once_wrapped
     = Ret (Some (PtrError (Some (length (heap once_wrapped)))),
            pushed once_wrapped
              (mk_Error (Some (PtrError p))
                 (captured (MaxStackDepth once_wrapped) sample_stack 2) None ""))).
Proof.
  apply (no_nested_preserved sample_stack (IErr (PtrError (Some 0%nat)))
           "read config" 0 once_wrapped).
  unfold no_nested, once_wrapped. simpl.
  constructor; [| constructor]. intros [p Hp]. discriminate.
Defined.

(** C2, as the claim has it, fails for [New]: [New] of a [*Error] stores
    the pointer in the field [Err] of the new struct, which then wraps a
    [*Error] directly. *)
Lemma New_nests_Error :
  New sample_stack (IErr (Plain sample_error)) shallow_state
  = Ret (Some (PtrError (Some 0%nat)), once_wrapped) /\
  no_nested (heap once_wrapped) /\
  exists s',
    New sample_stack (IErr (PtrError (Some 0%nat))) once_wrapped
    = Ret (Some (PtrError (Some 1%nat)), s') /\
    Error_Unwrap (heap s') (Some 1%nat) = Ret (Some (PtrError (Some 0%nat))) /\
    ~ no_nested (heap s').
Proof.
  split; [reflexivity |]. split; [exact no_nested_once_wrapped |].
  eexists. split; [reflexivity |]. split; [reflexivity |].
  intros H. unfold no_nested in H. rewrite Forall_lookup in H.
  apply (H 1%nat _ eq_refl). now exists (Some 0%nat).
Qed.

(** ** Frame resolution *)

Lemma with_frames_id (err : Error) : with_frames err (frames err) = err.
Proof. now destruct err. Qed.

Lemma with_frames_twice (err : Error) (v w : option (list StackFrame)) :
  with_frames (with_frames err v) w = with_frames err w.
Proof. reflexivity. Qed.

Section FramesFacts.

Variable sym : symtab.
Variable StackFrame_String : StackFrame -> string.

Lemma set_frames_Ret (l : loc) (err : Error) (v : option (list StackFrame)) (s : state) :
  heap s !! l = Some err ->
  set_frames (Some l) v s
  = Ret (tt, mk_state (MaxStackDepth s) (<[l := with_frames err v]> (heap s))
               (resolved s)).
Proof. intros Hl. unfold set_frames. now rewrite Hl. Qed.

Lemma set_frame_Ret (l : loc) (err : Error) (fs : list StackFrame) (i : nat)
    (f : StackFrame) (s : state) :
  heap s !! l = Some err ->
  frames err = Some fs ->
  (i < length fs)%nat ->
  set_frame (Some l) i f s
  = Ret (tt, mk_state (MaxStackDepth s)
               (<[l := with_frames err (Some (<[i := f]> fs))]> (heap s))
               (resolved s)).
Proof.
  intros Hl Hf Hi. unfold set_frame.
  erewrite bind_Ret by (apply lift_Ret; unfold deref; rewrite Hl; reflexivity).
  rewrite Hf. destruct (decide (i < length fs)%nat); [| contradiction].
  apply (set_frames_Ret l err); exact Hl.
Qed.

(** The loop from index [i]: the entries [i], [i+1], ... of the slice
    become the frames of the remaining program counters, the rest of the
    slice stays, and every program counter is resolved once, in order. *)
Lemma StackFrames_loop_Ret (l : loc) (stk : list uintptr) :
  forall (i : nat) (fs : list StackFrame) (err : Error) (s : state),
    heap s !! l = Some err ->
    frames err = Some fs ->
    (i + length stk <= length fs)%nat ->
    StackFrames_loop sym (Some l) i stk s
    = Ret (tt, mk_state (MaxStackDepth s)
                 (<[l := with_frames err
                           (Some (take i fs ++ map (NewStackFrame sym) stk
                                  ++ drop (i + length stk) fs))]> (heap s))
                 (resolved s ++ stk)).
Proof.
  induction stk as [|pc rest IH]; intros i fs err s Hl Hf Hlen.
  - simpl. rewrite Nat.add_0_r, take_drop, <- Hf, with_frames_id.
    rewrite list_insert_id by assumption. rewrite app_nil_r.
    now destruct s.
  - simpl in Hlen. cbn [StackFrames_loop].
    erewrite bind_Ret by reflexivity.
    erewrite bind_Ret by (eapply set_frame_Ret; [exact Hl | exact Hf | lia]).
    assert (l < length (heap s))%nat as Hlt by (eapply lookup_lt_Some; exact Hl).
    rewrite (IH (S i) (<[i := NewStackFrame sym pc]> fs)
               (with_frames err (Some (<[i := NewStackFrame sym pc]> fs))));
      [ | simpl; now apply list_lookup_insert_eq
        | reflexivity
        | rewrite length_insert; lia ].
    simpl. rewrite list_insert_insert_eq, with_frames_twice.
    rewrite (take_S_r _ _ (NewStackFrame sym pc))
      by (apply list_lookup_insert_eq; lia).
    rewrite take_insert_ge by lia.
    rewrite drop_insert_lt by lia.
    rewrite <- !app_assoc. simpl.
    replace (S (i + length rest)) with (i + S (length rest))%nat by lia.
    reflexivity.
Qed.

Lemma StackFrames_first (l : loc) (err : Error) (s : state) :
  heap s !! l = Some err ->
  frames err = None ->
  Error_StackFrames sym (Some l) s
  = Ret (map (NewStackFrame sym) (stack err), resolved_state sym l err s).
Proof.
  intros Hl Hf. unfold Error_StackFrames.
  assert (l < length (heap s))%nat as Hlt by (eapply lookup_lt_Some; exact Hl).
  erewrite bind_Ret by (apply lift_Ret; unfold deref; rewrite Hl; reflexivity).
  rewrite Hf.
  erewrite bind_Ret.
  2:{ erewrite bind_Ret by (apply (set_frames_Ret l err); exact Hl).
      apply (StackFrames_loop_Ret l (stack err) 0
               (replicate (length (stack err)) zero_StackFrame)
               (with_frames err (Some (replicate (length (stack err)) zero_StackFrame)))).
      - simpl. now apply list_lookup_insert_eq.
      - reflexivity.
      - rewrite length_replicate. lia. }
  simpl. rewrite list_insert_insert_eq, with_frames_twice.
  rewrite drop_ge by (rewrite length_replicate; lia). rewrite app_nil_r.
  erewrite bind_Ret.
  2:{ apply lift_Ret. unfold deref. simpl.
      rewrite list_lookup_insert_eq by assumption. reflexivity. }
  reflexivity.
Qed.

Lemma StackFrames_again (l : loc) (err : Error) (fs : list StackFrame) (s : state) :
  heap s !! l = Some err ->
  frames err = Some fs ->
  Error_StackFrames sym (Some l) s = Ret (fs, s).
Proof.
  intros Hl Hf. unfold Error_StackFrames.
  erewrite bind_Ret by (apply lift_Ret; unfold deref; rewrite Hl; reflexivity).
  rewrite Hf.
  erewrite bind_Ret by reflexivity.
  erewrite bind_Ret by (apply lift_Ret; unfold deref; rewrite Hl; reflexivity).
  now rewrite Hf.
Qed.

Lemma resolved_state_lookup (l : loc) (err : Error) (s : state) :
  heap s !! l = Some err ->
  heap (resolved_state sym l err s) !! l
  = Some (with_frames err (Some (map (NewStackFrame sym) (stack err)))).
Proof.
  intros Hl. unfold resolved_state. simpl.
  apply list_lookup_insert_eq. eapply lookup_lt_Some. exact Hl.
Qed.

Lemma Stack_Ret (p : ptr) (fs : list StackFrame) (s s' : state) :
  Error_StackFrames sym p s = Ret (fs, s') ->
  Error_Stack sym StackFrame_String p s
  = Ret (write_frames StackFrame_String fs, s').
Proof. intros H. unfold Error_Stack. now erewrite bind_Ret by exact H. Qed.

(** What a constructor does to the state: it appends structs to the store. *)
Lemma wrap_appends (g : list uintptr) (e : iface) (skip : Z) (s s' : state) (p : ptr) :
  wrap g e skip s = Ret (p, s') ->
  exists new,
    s' = mk_state (MaxStackDepth s) (heap s ++ new) (resolved s) /\
    Forall (fun x => frames x = None) new.
Proof.
  intros Hw. destruct (classic_ptr e) as [[q ->] | Hn].
  - injection Hw as _ <-. exists []. rewrite app_nil_r. split; [now destruct s | constructor].
  - rewrite wrap_fresh in Hw by assumption. apply capture_inv in Hw as [_ ->].
    eexists [_]. split; [reflexivity |]. now repeat constructor.
Qed.

Lemma constructors_append (g : list uintptr) (e : iface) (pfx : string) (skip : Z)
    (s s' : state) (r : error) :
  New g e s = Ret (r, s') \/ Wrap g e skip s = Ret (r, s')
  \/ WrapPrefix g e pfx skip s = Ret (r, s') ->
  exists new,
    s' = mk_state (MaxStackDepth s) (heap s ++ new) (resolved s) /\
    Forall (fun x => frames x = None) new.
Proof.
  intros [HN | [HW | HW]].
  - rewrite New_capture in HN. apply bind_inv in HN as (p & s1 & Hc & Hr).
    injection Hr as _ <-. apply capture_inv in Hc as [_ ->].
    eexists [_]. split; [reflexivity |]. now repeat constructor.
  - destruct (nil_or_not e) as [-> | Hnil].
    + injection HW as _ <-. exists []. rewrite app_nil_r.
      split; [now destruct s | constructor].
    + rewrite Wrap_not_nil in HW by assumption. apply bind_inv in HW as (p & s1 & Hw & Hr).
      injection Hr as _ <-. eapply wrap_appends. exact Hw.
  - destruct (nil_or_not e) as [-> | Hnil].
    + injection HW as _ <-. exists []. rewrite app_nil_r.
      split; [now destruct s | constructor].
    + rewrite WrapPrefix_not_nil in HW by assumption.
      apply bind_inv in HW as (p & s1 & Hw & HW).
      apply bind_inv in HW as (err & s2 & Hde & HW).
      apply lift_inv in Hde as [Hde ->].
      apply bind_inv in HW as (q & s3 & Ha & Hr).
      injection Hr as _ <-. injection Ha as _ <-.
      apply wrap_appends in Hw as (new & -> & Hnew).
      eexists (new ++ [_]). simpl. rewrite app_assoc. split; [reflexivity |].
      apply Forall_app. split; [assumption | now repeat constructor].
Qed.

(** C7: frame resolution is lazy and memoized.  The constructors only add
    structs whose [frames] is nil and resolve nothing.  On a struct whose
    [frames] is nil, [StackFrames] (and [Stack] through it) resolves every
    program counter of the stack once, in order, stores one frame per
    program counter and returns them.  On a struct whose [frames] is set it
    returns the stored frames and leaves the state, trace included, as it
    was; so a second call gives the frames of the first and resolves
    nothing. *)
Theorem StackFrames_memoized (g : list uintptr) (e : iface) (pfx : string)
    (skip : Z) (l : loc) (err : Error) (s : state) :
  (forall r s',
     New g e s = Ret (r, s') \/ Wrap g e skip s = Ret (r, s')
     \/ WrapPrefix g e pfx skip s = Ret (r, s') ->
     exists new,
       s' = mk_state (MaxStackDepth s) (heap s ++ new) (resolved s) /\
       Forall (fun x => frames x = None) new) /\
  (heap s !! l = Some err -> frames err = None ->
   let fs := map (NewStackFrame sym) (stack err) in
   let s1 := resolved_state sym l err s in
   length fs = length (stack err) /\
   Error_StackFrames sym (Some l) s = Ret (fs, s1) /\
   Error_Stack sym StackFrame_String (Some l) s
   = Ret (write_frames StackFrame_String fs, s1) /\
   Error_StackFrames sym (Some l) s1 = Ret (fs, s1) /\
   Error_Stack sym StackFrame_String (Some l) s1
   = Ret (write_frames StackFrame_String fs, s1)) /\
  (forall fs,
     heap s !! l = Some err -> frames err = Some fs ->
     Error_StackFrames sym (Some l) s = Ret (fs, s) /\
     Error_Stack sym StackFrame_String (Some l) s
     = Ret (write_frames StackFrame_String fs, s)).
Proof.
  split; [| split].
  - intros r s'. apply constructors_append.
  - intros Hl Hf fs s1.
    pose proof (StackFrames_first l err s Hl Hf) as H1.
    pose proof (StackFrames_again l _ fs s1 (resolved_state_lookup l err s Hl) eq_refl)
      as H2.
    repeat split.
    + apply length_map.
    + exact H1.
    + now apply Stack_Ret.
    + exact H2.
    + now apply Stack_Ret.
  - intros fs Hl Hf.
    pose proof (StackFrames_again l err fs s Hl Hf) as H. split; [exact H |].
    now apply Stack_Ret.
Qed.

End FramesFacts.

Lemma StackFrames_memoized_witness :
  let err := mk_Error (Some (Plain sample_error))
               [4198912; 4199168; 4199424]%Z None "" in
  let fs := map (NewStackFrame sample_symtab) (stack err) in
  let s1 := resolved_state sample_symtab 0 err once_wrapped in
  length fs = length (stack err) /\
  Error_StackFrames sample_symtab (Some 0%nat) once_wrapped = Ret (fs, s1) /\
  Error_Stack sample_symtab sample_String (Some 0%nat) once_wrapped
  = Ret (write_frames sample_String fs, s1) /\
  Error_StackFrames sample_symtab (Some 0%nat) s1 = Ret (fs, s1) /\
  Error_Stack sample_symtab sample_String (Some 0%nat) s1
  = Ret (write_frames sample_String fs, s1).
Proof.
  apply (proj1 (proj2 (StackFrames_memoized sample_symtab sample_String
                         sample_stack INil "" 0 0
                         (mk_Error (Some (Plain sample_error))
                            [4198912; 4199168; 4199424]%Z None "")
                         once_wrapped)));
    reflexivity.
Defined.

(** ** The message and the formatted trace *)

Lemma wf_Err_mono (l k : loc) (e : error) :
  (l <= k)%nat -> wf_Err l e -> wf_Err k e.
Proof.
  intros Hle. destruct e as [[[l'|]|pe]|]; simpl; try trivial. lia.
Qed.

(** In a well-formed store the message accessor returns, with any fuel
    above the address. *)
Lemma Error_Error_total (h : list Error) :
  wf_heap h ->
  forall (fuel : nat) (l : loc),
    (l < fuel)%nat -> (l < length h)%nat ->
    exists err m0,
      h !! l = Some err /\
      underlying_message (fuel - 1) h (Err err) = Ret m0 /\
      Error_Error fuel h (Some l) = Ret (prefixed (prefix err) m0).
Proof.
  intros Hwf. induction fuel as [|fuel IH]; intros l Hf Hl; [lia |].
  destruct (lookup_lt_is_Some_2 h l Hl) as [err Herr].
  pose proof (Hwf l err Herr) as Hw.
  assert (exists m0, underlying_message fuel h (Err err) = Ret m0) as [m0 Hm0].
  { destruct (Err err) as [[[l'|]|pe]|]; simpl in *; try contradiction.
    - destruct (IH l') as (err' & m' & _ & _ & Hm'); [lia | lia |]. eauto.
    - destruct Hw as [msg Hmsg]. exists msg. unfold call_Error. now rewrite Hmsg. }
  exists err, m0. replace (S fuel - 1)%nat with fuel by lia.
  split; [assumption |]. split; [assumption |].
  now apply Error_Error_at.
Qed.

(** The message depends on the underlying errors and the prefixes only. *)
Lemma Error_Error_same_messages (h h' : list Error) :
  same_messages h h' ->
  forall (fuel : nat) (p : ptr), Error_Error fuel h p = Error_Error fuel h' p.
Proof.
  intros Hs. induction fuel as [|fuel IH]; intros p; [reflexivity |].
  rewrite !Error_Error_S. unfold deref. destruct p as [l|]; [| reflexivity].
  unfold same_messages in Hs. rewrite Forall2_lookup in Hs.
  pose proof (Hs l) as Hl. revert Hl.
  destruct (h !! l) as [e|], (h' !! l) as [e'|]; intros Hl;
    inversion Hl as [? ? [HE HP] |]; [| reflexivity].
  simpl. rewrite <- HE, <- HP.
  destruct (Err e) as [[q|pe]|]; simpl; [| reflexivity | reflexivity].
  now rewrite IH.
Qed.

Lemma same_messages_refl (h : list Error) : same_messages h h.
Proof. unfold same_messages. apply Forall2_same_length_lookup_2; [reflexivity |].
  intros i x y Hx Hy. rewrite Hx in Hy. injection Hy as ->. now split.
Qed.

Lemma same_messages_insert (h : list Error) (l : loc) (err : Error)
    (v : option (list StackFrame)) :
  h !! l = Some err ->
  same_messages h (<[l := with_frames err v]> h).
Proof.
  intros Hl. unfold same_messages.
  apply Forall2_same_length_lookup_2; [now rewrite length_insert |].
  intros i x y Hx Hy.
  destruct (decide (l = i)) as [-> | Hne].
  - rewrite list_lookup_insert_eq in Hy by (eapply lookup_lt_Some; exact Hl).
    rewrite Hl in Hx. injection Hx as <-. injection Hy as <-. now split.
  - rewrite list_lookup_insert_ne in Hy by assumption.
    rewrite Hx in Hy. injection Hy as ->. now split.
Qed.

Lemma TypeName_total (h : list Error) (l : loc) (err : Error) :
  h !! l = Some err -> wf_Err l (Err err) ->
  exists label, Error_TypeName h (Some l) = Ret label.
Proof.
  intros Hl Hw. unfold Error_TypeName, deref. rewrite Hl. simpl.
  destruct (Err err) as [[q|pe]|]; simpl in *; [eauto | | contradiction].
  destruct (etype pe); eauto.
Qed.

Lemma write_frames_acc (render : StackFrame -> string) (fs : list StackFrame) :
  forall acc : string,
    foldl (fun buf frame => buf +:+ render frame) acc fs
    = acc +:+ write_frames render fs.
Proof.
  unfold write_frames. induction fs as [|f fs IH]; intros acc; simpl.
  - induction acc as [|c acc IHacc]; [reflexivity |].
    change (String c acc = String c (acc +:+ "")). now rewrite <- IHacc.
  - rewrite IH. rewrite (IH ("" +:+ render f)).
    change ("" +:+ render f) with (render f). now rewrite append_assoc.
Qed.

Lemma write_frames_cons (render : StackFrame -> string) (f : StackFrame)
    (rest : list StackFrame) :
  write_frames render (f :: rest) = render f +:+ write_frames render rest.
Proof.
  unfold write_frames at 1. simpl. now rewrite write_frames_acc.
Qed.

(** The constructors keep the store well formed. *)
Lemma wf_heap_pushed (s : state) (e : Error) :
  wf_heap (heap s) -> wf_Err (length (heap s)) (Err e) ->
  wf_heap (heap (pushed s e)).
Proof.
  intros Hwf He l err Hl. unfold pushed in Hl. simpl in Hl.
  apply lookup_snoc_Some in Hl as [[_ Hl] | [-> <-]]; [now apply Hwf | assumption].
Qed.

Lemma wf_Err_as_error (h : list Error) (e : iface) :
  valid_input h e -> wf_Err (length h) (Some (as_error e)).
Proof.
  intros [Hp Hf]. destruct e as [|[p|pe]|v]; simpl.
  - now exists "<nil>".
  - destruct (Hp p eq_refl) as (l & -> & Hl). exact Hl.
  - now apply Hf.
  - now exists (orepr v).
Qed.

Lemma valid_input_result (h : list Error) (l : loc) :
  (l < length h)%nat -> valid_input h (to_iface (Some (PtrError (Some l)))).
Proof.
  intros Hl. split.
  - intros p [= <-]. now exists l.
  - intros pe. discriminate.
Qed.

Lemma valid_input_nil (h : list Error) : valid_input h (to_iface None).
Proof. split; intros x; discriminate. Qed.

Lemma New_wf (g : list uintptr) (e : iface) (s s' : state) (r : error) :
  wf_heap (heap s) -> valid_input (heap s) e ->
  New g e s = Ret (r, s') ->
  wf_heap (heap s') /\ valid_input (heap s') (to_iface r).
Proof.
  intros Hwf Hv HN. rewrite New_capture in HN.
  apply bind_inv in HN as (p & s1 & Hc & Hr). injection Hr as <- <-.
  apply capture_inv in Hc as [-> ->]. split.
  - apply wf_heap_pushed; [assumption | now apply wf_Err_as_error].
  - apply valid_input_result.
    unfold pushed. simpl. rewrite length_app. simpl. lia.
Qed.

Lemma wrap_wf (g : list uintptr) (e : iface) (skip : Z) (s s' : state) (p : ptr) :
  wf_heap (heap s) -> valid_input (heap s) e ->
  wrap g e skip s = Ret (p, s') ->
  wf_heap (heap s') /\ exists l, p = Some l /\ (l < length (heap s'))%nat.
Proof.
  intros Hwf Hv Hw. destruct (classic_ptr e) as [[q ->] | Hn].
  - injection Hw as <- <-. split; [assumption | now apply (proj1 Hv)].
  - rewrite wrap_fresh in Hw by assumption. apply capture_inv in Hw as [-> ->].
    split.
    + apply wf_heap_pushed; [assumption | now apply wf_Err_as_error].
    + eexists. split; [reflexivity |].
      unfold pushed. simpl. rewrite length_app. simpl. lia.
Qed.

Lemma Wrap_wf (g : list uintptr) (e : iface) (skip : Z) (s s' : state) (r : error) :
  wf_heap (heap s) -> valid_input (heap s) e ->
  Wrap g e skip s = Ret (r, s') ->
  wf_heap (heap s') /\ valid_input (heap s') (to_iface r).
Proof.
  intros Hwf Hv HW. destruct (nil_or_not e) as [-> | Hnil].
  - injection HW as <- <-. split; [assumption | apply valid_input_nil].
  - rewrite Wrap_not_nil in HW by assumption. apply bind_inv in HW as (p & s1 & Hw & Hr).
    injection Hr as <- <-.
    destruct (wrap_wf _ _ _ _ _ _ Hwf Hv Hw) as (H1 & l & -> & Hl).
    split; [assumption | now apply valid_input_result].
Qed.

Lemma WrapPrefix_wf (g : list uintptr) (e : iface) (pfx : string) (skip : Z)
    (s s' : state) (r : error) :
  wf_heap (heap s) -> valid_input (heap s) e ->
  WrapPrefix g e pfx skip s = Ret (r, s') ->
  wf_heap (heap s') /\ valid_input (heap s') (to_iface r).
Proof.
  intros Hwf Hv HW. destruct (nil_or_not e) as [-> | Hnil].
  - injection HW as <- <-. split; [assumption | apply valid_input_nil].
  - rewrite WrapPrefix_not_nil in HW by assumption.
    apply bind_inv in HW as (p & s1 & Hw & HW).
    apply bind_inv in HW as (err & s2 & Hde & HW).
    apply lift_inv in Hde as [Hde ->].
    apply bind_inv in HW as (q & s3 & Ha & Hr).
    injection Hr as <- <-. injection Ha as <- <-.
    destruct (wrap_wf _ _ _ _ _ _ Hwf Hv Hw) as (H1 & l & -> & Hl).
    unfold deref in Hde. destruct (heap s1 !! l) as [x|] eqn:Hx; [| discriminate].
    injection Hde as ->. split.
    + apply (wf_heap_pushed s1); [assumption |]. simpl.
      apply (wf_Err_mono l); [lia | now apply H1].
    + apply valid_input_result. simpl. rewrite length_app. simpl. lia.
Qed.

Lemma TypeName_label (h : list Error) (l : loc) (err : Error) :
  h !! l = Some err -> wf_Err l (Err err) ->
  Error_TypeName h (Some l) = Ret (type_label (Err err)).
Proof.
  intros Hl Hw. unfold Error_TypeName, deref. rewrite Hl. simpl.
  destruct (Err err) as [[q|pe]|]; simpl in *; [reflexivity | | contradiction].
  now destruct (etype pe).
Qed.

Section ErrorStackFacts.

Variable sym : symtab.
Variable StackFrame_String : StackFrame -> string.

(** [StackFrames] returns the frames that [shown_frames] names, and a
    second call returns them again. *)
Lemma StackFrames_shown (l : loc) (err : Error) (s : state) :
  heap s !! l = Some err ->
  exists s',
    Error_StackFrames sym (Some l) s = Ret (shown_frames sym err, s') /\
    Error_StackFrames sym (Some l) s' = Ret (shown_frames sym err, s') /\
    same_messages (heap s) (heap s').
Proof.
  intros Hl. unfold shown_frames. destruct (frames err) as [fs|] eqn:Hf.
  - exists s. pose proof (StackFrames_again sym l err fs s Hl Hf) as H.
    split; [exact H |]. split; [exact H | apply same_messages_refl].
  - eexists. split; [apply (StackFrames_first sym l err); assumption |].
    split.
    + apply (StackFrames_again sym l
               (with_frames err (Some (map (NewStackFrame sym) (stack err)))));
        [now apply resolved_state_lookup | reflexivity].
    + unfold resolved_state. simpl. now apply same_messages_insert.
Qed.

Lemma TypeName_inv (h : list Error) (l : loc) (err : Error) (t : string) :
  h !! l = Some err -> Err err <> None ->
  Error_TypeName h (Some l) = Ret t ->
  t = type_label (Err err).
Proof.
  intros Hl Hne. unfold Error_TypeName, deref. rewrite Hl. simpl.
  destruct (Err err) as [[q|pe]|]; simpl; [| | contradiction].
  - now intros [= <-].
  - destruct (etype pe); now intros [= <-].
Qed.

(** C8: the message against the formatted trace.  In a well-formed store,
    [Error()] returns the message of the underlying error with the prefix
    in front when there is one; the result is the same in every store that
    agrees on underlying errors and prefixes, whatever the stacks and
    frames are, and resolving the frames does not change it.
    [ErrorStack()] returns the label of the type ([type_label]: the word
    ["panic"] or the name of the dynamic type of the underlying error), a
    space, that message, a newline and the rendering of every frame of the
    error, one frame for every program counter of its stack when none was
    stored; so with a stack that is not empty the text after the newline
    starts with the rendering of the frame of the first program counter.
    And in any store, whenever [ErrorStack()] returns, what it returns has
    that form. *)
Theorem ErrorStack_format (fuel : nat) (l : loc) (s : state) :
  (wf_heap (heap s) -> (l < length (heap s))%nat -> (l < fuel)%nat ->
   exists err m0 s',
     heap s !! l = Some err /\
     underlying_message (fuel - 1) (heap s) (Err err) = Ret m0 /\
     Error_Error fuel (heap s) (Some l) = Ret (prefixed (prefix err) m0) /\
     (forall h', same_messages (heap s) h' ->
                 Error_Error fuel h' (Some l) = Ret (prefixed (prefix err) m0)) /\
     Error_TypeName (heap s) (Some l) = Ret (type_label (Err err)) /\
     Error_StackFrames sym (Some l) s = Ret (shown_frames sym err, s') /\
     same_messages (heap s) (heap s') /\
     Error_ErrorStack sym StackFrame_String fuel (Some l) s
     = Ret ((((type_label (Err err) +:+ " ") +:+ prefixed (prefix err) m0)
             +:+ newline)
            +:+ write_frames StackFrame_String (shown_frames sym err), s') /\
     (forall f rest,
        shown_frames sym err = f :: rest ->
        write_frames StackFrame_String (shown_frames sym err)
        = StackFrame_String f +:+ write_frames StackFrame_String rest) /\
     (forall pc rest,
        frames err = None -> stack err = pc :: rest ->
        write_frames StackFrame_String (shown_frames sym err)
        = StackFrame_String (NewStackFrame sym pc)
          +:+ write_frames StackFrame_String (map (NewStackFrame sym) rest))) /\
  (forall out s',
     Error_ErrorStack sym StackFrame_String fuel (Some l) s = Ret (out, s') ->
     exists err m0,
       heap s !! l = Some err /\
       Error_Error fuel (heap s) (Some l) = Ret (prefixed (prefix err) m0) /\
       out = (((type_label (Err err) +:+ " ") +:+ prefixed (prefix err) m0)
              +:+ newline)
             +:+ write_frames StackFrame_String (shown_frames sym err)).
Proof.
  split.
  - intros Hwf Hl Hfuel.
    destruct (Error_Error_total _ Hwf fuel l Hfuel Hl)
      as (err & m0 & Herr & Hm0 & Hmsg).
    pose proof (TypeName_label _ l err Herr (Hwf l err Herr)) as Hlabel.
    destruct (StackFrames_shown l err s Herr) as (s' & Hfs & _ & Hsame).
    exists err, m0, s'. repeat split; try assumption.
    + intros h' Hh'. now rewrite <- (Error_Error_same_messages _ _ Hh').
    + unfold Error_ErrorStack.
      erewrite bind_Ret by (apply lift_Ret; exact Hlabel).
      erewrite bind_Ret by (apply lift_Ret; exact Hmsg).
      erewrite bind_Ret by (apply Stack_Ret; exact Hfs).
      reflexivity.
    + intros f rest ->. apply write_frames_cons.
    + intros pc rest Hf Hstk. unfold shown_frames. rewrite Hf, Hstk.
      apply write_frames_cons.
  - intros out s' H. unfold Error_ErrorStack in H.
    apply bind_inv in H as (t & s1 & Ht & H). apply lift_inv in Ht as [Ht ->].
    apply bind_inv in H as (m & s1 & Hm & H). apply lift_inv in Hm as [Hm ->].
    apply bind_inv in H as (b & s1 & Hb & H). injection H as <- <-.
    pose proof Hm as Hm'.
    apply Error_Error_inv in Hm'
      as (fuel' & l' & err & m0 & -> & [= <-] & Herr & Hu & ->).
    exists err, m0. split; [exact Herr |]. split; [exact Hm |].
    assert (Err err <> None) as Hne
      by (intros E; rewrite E in Hu; discriminate).
    rewrite (TypeName_inv _ _ _ _ Herr Hne Ht).
    unfold Error_Stack in Hb. apply bind_inv in Hb as (fs & s2 & Hfs & Hb).
    injection Hb as <- <-.
    destruct (StackFrames_shown l err s Herr) as (s3 & Hshown & _ & _).
    rewrite Hshown in Hfs. injection Hfs as <- <-. reflexivity.
Qed.

End ErrorStackFacts.

Lemma ErrorStack_format_witness :
  exists err m0 s',
    heap once_wrapped !! 0%nat = Some err /\
    underlying_message 0 (heap once_wrapped) (Err err) = Ret m0 /\
    Error_Error 1 (heap once_wrapped) (Some 0%nat) = Ret (prefixed (prefix err) m0) /\
    (forall h', same_messages (heap once_wrapped) h' ->
                Error_Error 1 h' (Some 0%nat) = Ret (prefixed (prefix err) m0)) /\
    Error_TypeName (heap once_wrapped) (Some 0%nat) = Ret (type_label (Err err)) /\
    Error_StackFrames sample_symtab (Some 0%nat) once_wrapped
    = Ret (shown_frames sample_symtab err, s') /\
    same_messages (heap once_wrapped) (heap s') /\
    Error_ErrorStack sample_symtab sample_String 1 (Some 0%nat) once_wrapped
    = Ret ((((type_label (Err err) +:+ " ") +:+ prefixed (prefix err) m0)
            +:+ newline)
           +:+ write_frames sample_String (shown_frames sample_symtab err), s') /\
    (forall f rest,
       shown_frames sample_symtab err = f :: rest ->
       write_frames sample_String (shown_frames sample_symtab err)
       = sample_String f +:+ write_frames sample_String rest) /\
    (forall pc rest,
       frames err = None -> stack err = pc :: rest ->
       write_frames sample_String (shown_frames sample_symtab err)
       = sample_String (NewStackFrame sample_symtab pc)
         +:+ write_frames sample_String (map (NewStackFrame sample_symtab) rest)).
Proof.
  apply (proj1 (ErrorStack_format sample_symtab sample_String 1 0 once_wrapped)).
  - intros l err Hl. destruct l as [|l]; [| discriminate].
    injection Hl as <-. simpl. now eexists.
  - simpl. lia.
  - lia.
Defined.

(** ** Interleaved calls of StackFrames *)

Section InterleavedFacts.

Variable sym : symtab.
Variable stk : list uintptr.

Lemma correct_upto_write (n i : nat) (pc : uintptr) (arr : list StackFrame) :
  stk !! i = Some pc ->
  correct_upto sym stk n arr ->
  correct_upto sym stk n (<[i := NewStackFrame sym pc]> arr).
Proof.
  intros Hi Hc j pc' Hj Hpc'. specialize (Hc j pc' Hj Hpc').
  destruct (decide (i = j)) as [-> | Hne].
  - rewrite list_lookup_insert_eq by (eapply lookup_lt_Some; exact Hc).
    congruence.
  - now rewrite list_lookup_insert_ne.
Qed.

Lemma correct_upto_next (i : nat) (pc : uintptr) (arr : list StackFrame) :
  stk !! i = Some pc ->
  length arr = length stk ->
  correct_upto sym stk i arr ->
  correct_upto sym stk (S i) (<[i := NewStackFrame sym pc]> arr).
Proof.
  intros Hi Hlen Hc j pc' Hj Hpc'.
  destruct (decide (i = j)) as [-> | Hne].
  - rewrite list_lookup_insert_eq
      by (rewrite Hlen; eapply lookup_lt_Some; exact Hi).
    congruence.
  - rewrite list_lookup_insert_ne by assumption. apply Hc; [lia | assumption].
Qed.

Lemma correct_upto_end (i : nat) (arr : list StackFrame) :
  stk !! i = None ->
  correct_upto sym stk i arr ->
  correct_upto sym stk (length stk) arr.
Proof.
  intros Hi Hc j pc Hj Hpc. apply Hc; [| assumption].
  apply lookup_ge_None in Hi. lia.
Qed.

Lemma correct_upto_all (arr : list StackFrame) :
  length arr = length stk ->
  correct_upto sym stk (length stk) arr ->
  arr = map (NewStackFrame sym) stk.
Proof.
  intros Hlen Hc. apply list_eq. intros j.
  change (map (NewStackFrame sym) stk) with (NewStackFrame sym <$> stk).
  rewrite list_lookup_fmap.
  destruct (stk !! j) as [pc|] eqn:Hj; simpl.
  - apply Hc; [eapply lookup_lt_Some; exact Hj | assumption].
  - apply lookup_ge_None. apply lookup_ge_None in Hj. lia.
Qed.

Lemma progress_write (pt : point) (i : nat) (pc : uintptr) (arr : list StackFrame) :
  stk !! i = Some pc ->
  progress sym stk pt arr ->
  progress sym stk pt (<[i := NewStackFrame sym pc]> arr).
Proof.
  intros Hi. destruct pt; simpl; try trivial; now apply correct_upto_write.
Qed.

(** A statement that leaves the shared memory alone. *)
Lemma race_inv_local (c : config) (t : nat) (pt pt' : point) :
  race_inv sym stk c ->
  threads c !! t = Some pt ->
  (field (mem c) = None -> before_make pt -> before_make pt') ->
  (forall arr, progress sym stk pt arr -> progress sym stk pt' arr) ->
  race_inv sym stk (mk_config (mem c) (<[t := pt']> (threads c))).
Proof.
  intros Hinv Ht Hb Hp. unfold race_inv in *. simpl.
  assert (t < length (threads c))%nat as Hlt by (eapply lookup_lt_Some; exact Ht).
  destruct (field (mem c)) as [a|].
  - destruct Hinv as (arr & t0 & pt0 & Harr & Hlen & Ht0 & Hpr).
    exists arr. destruct (decide (t = t0)) as [<- | Hne].
    + exists t, pt'. rewrite list_lookup_insert_eq by assumption.
      repeat split; try assumption. apply Hp. congruence.
    + exists t0, pt0. rewrite list_lookup_insert_ne by assumption.
      now repeat split.
  - intros t' pt'' Hl. apply list_lookup_insert_Some in Hl as [(<- & <- & _) | (_ & Hl)].
    + apply Hb; [reflexivity |]. now apply (Hinv t pt).
    + now apply (Hinv t' pt'').
Qed.

Lemma race_inv_step (t : nat) (c : config) :
  race_inv sym stk c -> race_inv sym stk (step_at sym stk t c).
Proof.
  intros Hinv. unfold step_at.
  destruct (threads c !! t) as [pt|] eqn:Ht; [| assumption].
  assert (t < length (threads c))%nat as Hlt by (eapply lookup_lt_Some; exact Ht).
  destruct pt as [| |i| |a|fs]; simpl.
  - (* the test *)
    apply (race_inv_local c t AtCheck); try assumption.
    + intros Hf _. now rewrite Hf.
    + intros arr [].
  - (* make *)
    unfold race_inv. simpl.
    exists (replicate (length stk) zero_StackFrame), t, (AtLoop 0).
    rewrite list_lookup_middle by reflexivity.
    rewrite list_lookup_insert_eq by assumption.
    repeat split; [apply length_replicate |].
    intros j pc Hj. lia.
  - (* the loop *)
    destruct (stk !! i) as [pc|] eqn:Hi.
    + destruct (field (mem c)) as [a|] eqn:Hf; [| assumption].
      unfold race_inv in *. simpl. rewrite Hf in *.
      destruct Hinv as (arr & t0 & pt0 & Harr & Hlen & Ht0 & Hpr).
      exists (<[i := NewStackFrame sym pc]> arr).
      destruct (decide (t = t0)) as [<- | Hne].
      * exists t, (AtLoop (S i)).
        rewrite list_lookup_alter_eq, Harr.
        rewrite list_lookup_insert_eq by assumption.
        rewrite length_insert. repeat split; try assumption.
        rewrite Ht in Ht0. injection Ht0 as <-. simpl in *.
        now apply correct_upto_next.
      * exists t0, pt0.
        rewrite list_lookup_alter_eq, Harr.
        rewrite list_lookup_insert_ne by assumption.
        rewrite length_insert. repeat split; try assumption.
        now apply progress_write.
    + apply (race_inv_local c t (AtLoop i)); try assumption.
      * intros _ [].
      * intros arr Hpr. simpl in *. now apply (correct_upto_end i).
  - (* the return *)
    apply (race_inv_local c t AtReturn); try assumption.
    + intros _ [].
    + intros arr Hpr. exact Hpr.
  - (* the caller reads the slice *)
    apply (race_inv_local c t (Returned a)); try assumption.
    + intros _ [].
    + intros arr Hpr. exact Hpr.
  - assumption.
Qed.

Lemma race_inv_run (sched : list nat) :
  forall c, race_inv sym stk c -> race_inv sym stk (run sym stk sched c).
Proof.
  unfold run. induction sched as [|t sched IH]; intros c Hinv; simpl;
    [assumption |].
  apply IH. now apply race_inv_step.
Qed.

Lemma race_inv_init (k : nat) : race_inv sym stk (init_config k).
Proof.
  unfold race_inv, init_config. simpl. intros t pt Hl.
  apply lookup_replicate_1 in Hl as [-> _]. exact I.
Qed.

Lemma length_threads_step (t : nat) (c : config) :
  length (threads (step_at sym stk t c)) = length (threads c).
Proof.
  unfold step_at. destruct (threads c !! t) as [pt|]; [| reflexivity].
  destruct (step_thread sym stk (mem c) pt) as [[m' pt']|]; [| reflexivity].
  simpl. apply length_insert.
Qed.

Lemma length_threads_run (sched : list nat) :
  forall c, length (threads (run sym stk sched c)) = length (threads c).
Proof.
  unfold run. induction sched as [|t sched IH]; intros c; simpl; [reflexivity |].
  rewrite IH. apply length_threads_step.
Qed.

(** C9, as the code has it: however the racing first calls interleave,
    once every goroutine has returned from [StackFrames] the field
    [frames] holds exactly one frame per program counter of the stack.
    What each goroutine saw on the way is left out. *)
Theorem race_final_frames (k : nat) (sched : list nat) :
  (0 < k)%nat ->
  (forall t pt,
     threads (run sym stk sched (init_config k)) !! t = Some pt -> returned pt) ->
  exists a,
    field (mem (run sym stk sched (init_config k))) = Some a /\
    arrays (mem (run sym stk sched (init_config k))) !! a
    = Some (map (NewStackFrame sym) stk).
Proof.
  intros Hk Hret.
  pose proof (race_inv_run sched _ (race_inv_init k)) as Hinv.
  pose proof (length_threads_run sched (init_config k)) as Hlen.
  simpl in Hlen. rewrite length_replicate in Hlen.
  set (c := run sym stk sched (init_config k)) in *.
  unfold race_inv in Hinv. destruct (field (mem c)) as [a|].
  - destruct Hinv as (arr & t0 & pt0 & Harr & Hl & Ht0 & Hpr).
    exists a. split; [reflexivity |]. rewrite Harr. f_equal.
    apply correct_upto_all; [assumption |].
    specialize (Hret t0 pt0 Ht0). destruct pt0; simpl in *; try contradiction;
      assumption.
  - destruct (lookup_lt_is_Some_2 (threads c) 0) as [pt Hpt]; [lia |].
    pose proof (Hinv 0%nat pt Hpt) as Hb. pose proof (Hret 0%nat pt Hpt) as Hr.
    destruct pt; simpl in *; contradiction.
Qed.

End InterleavedFacts.

Lemma race_final_frames_witness :
  exists a,
    field (mem (run sample_symtab [4198912%Z] late_maker (init_config 2))) = Some a /\
    arrays (mem (run sample_symtab [4198912%Z] late_maker (init_config 2))) !! a
    = Some (map (NewStackFrame sample_symtab) [4198912%Z]).
Proof.
  apply (race_final_frames sample_symtab [4198912%Z] 2 late_maker).
  - lia.
  - intros t pt. vm_compute.
    destruct t as [|[|t]]; intros [= <-]; exact I.
Defined.

(** C9, as the claim has it, fails.  With two goroutines and a stack of
    one program counter, the schedule [early_reader] lets the second
    goroutine return and read the slice between the [make] and the first
    write of the first one: it sees the zero frame where the first sees the
    resolved one.  And in the schedule [late_maker] the first goroutine has
    returned the resolved frames when the [make] of the second replaces the
    stored slice by one of zero frames. *)
Lemma race_observations_differ :
  (exists fs0 fs1,
     threads (run sample_symtab [4198912%Z] early_reader (init_config 2))
     = [Observed fs0; Observed fs1] /\
     fs0 = map (NewStackFrame sample_symtab) [4198912%Z] /\
     fs1 = [zero_StackFrame] /\
     fs0 <> fs1) /\
  (let c := run sample_symtab [4198912%Z] late_maker_reset (init_config 2) in
   threads c !! 0%nat = Some (Observed (map (NewStackFrame sample_symtab) [4198912%Z])) /\
   field (mem c) = Some 1%nat /\
   arrays (mem c) !! 1%nat = Some [zero_StackFrame]).
Proof.
  split.
  - eexists _, _. split; [reflexivity |]. split; [reflexivity |].
    split; [reflexivity |]. discriminate.
  - repeat split.
Qed.

(** ** The sample states are reachable *)

Example prefixed_once_reached :
  WrapPrefix sample_stack (IErr (Plain sample_error)) "read config" 0 shallow_state
  = Ret (Some (PtrError (Some 1%nat)), prefixed_once).
Proof. reflexivity. Qed.

Example Errorf_skips_itself :
  Errorf sample_stack T_errorString "oh dear" shallow_state
  = Ret (Some (PtrError (Some 0%nat)),
         mk_state 3
           [mk_Error (Some (Plain (mk_plain T_errorString "oh dear")))
              [4199424; 4199680; 4199936]%Z None ""] []).
Proof. reflexivity. Qed.

Example New_negative_depth_panics :
  New sample_stack INil (mk_state (-1) [] []) = Panic MakesliceLenOutOfRange.
Proof. reflexivity. Qed.

Example WrapPrefix_nil_pointer_panics :
  WrapPrefix sample_stack (IErr (PtrError None)) "A" 0 shallow_state
  = Panic NilDereference.
Proof. reflexivity. Qed.

Example Wrap_of_panicking_foreign_error :
  Wrap sample_stack
    (IErr (Plain (mk_foreign (T_named "*fs.PathError") Panics))) 0 shallow_state
  = Ret (Some (PtrError (Some 0%nat)),
         mk_state 3
           [mk_Error (Some (Plain (mk_foreign (T_named "*fs.PathError") Panics)))
              [4199168; 4199424; 4199680]%Z None ""] []) /\
  Error_Error 1
    [mk_Error (Some (Plain (mk_foreign (T_named "*fs.PathError") Panics)))
       [4199168; 4199424; 4199680]%Z None ""] (Some 0%nat)
  = Panic ForeignPanic /\
  Error_TypeName
    [mk_Error (Some (Plain (mk_foreign (T_named "*fs.PathError") Panics)))
       [4199168; 4199424; 4199680]%Z None ""] (Some 0%nat)
  = Ret "*fs.PathError".
Proof. repeat split. Qed.

(** * Further properties of the code *)

(** ** Messages in a growing store *)

Lemma Error_Error_app (fuel : nat) :
  forall (h h' : list Error) (p : ptr) (m : string),
    Error_Error fuel h p = Ret m ->
    Error_Error fuel (h ++ h') p = Ret m.
Proof.
  induction fuel as [|fuel IH]; intros h h' p m Hm; [discriminate |].
  apply Error_Error_inv in Hm
    as (fuel' & l & err & msg & [= <-] & -> & Hl & Hu & ->).
  apply Error_Error_at; [now apply lookup_app_l_Some |].
  destruct (Err err) as [[q|pe]|]; simpl in *; [| assumption | discriminate].
  now apply IH.
Qed.

Lemma Error_Error_more_fuel (fuel : nat) (h : list Error) (p : ptr) (m : string) :
  Error_Error fuel h p = Ret m -> Error_Error (S fuel) h p = Ret m.
Proof.
  intros Hm. rewrite <- (app_nil_r h). now apply Error_Error_stable.
Qed.

Lemma underlying_as_error (fuel : nat) (h : list Error) (e : iface) (m : string) :
  message_of fuel h e = Ret m ->
  underlying_message fuel h (Some (as_error e)) = Ret m.
Proof. destruct e as [|[q|pe]|v]; simpl; trivial. Qed.

Lemma underlying_message_app (fuel : nat) (h h' : list Error) (e : error) (m : string) :
  underlying_message fuel h e = Ret m ->
  underlying_message fuel (h ++ h') e = Ret m.
Proof.
  destruct e as [[q|pe]|]; simpl; [| trivial | discriminate].
  apply Error_Error_app.
Qed.

Lemma lookup_pushed (s : state) (e : Error) :
  heap (pushed s e) !! length (heap s) = Some e.
Proof. unfold pushed. simpl. now apply list_lookup_middle. Qed.

(** ** Errorf *)

(** X1: [Errorf] never returns nil.  It returns a new [*Error] whose
    message is the formatted text, whose underlying error is the error
    that [fmt.Errorf] made, and whose stack starts at the caller of
    [Errorf]: the frames of [runtime.Callers], [wrap], [Wrap] and [Errorf]
    are skipped. *)
Theorem Errorf_result (g : list uintptr) (t : dyn_type) (formatted : string)
    (s : state) :
  (0 <= MaxStackDepth s)%Z ->
  exists s',
    Errorf g t formatted s = Ret (Some (PtrError (Some (length (heap s)))), s') /\
    Error_Error 1 (heap s') (Some (length (heap s))) = Ret formatted /\
    Error_Unwrap (heap s') (Some (length (heap s)))
    = Ret (Some (fmt_Errorf t formatted)) /\
    Error_Callers (heap s') (Some (length (heap s)))
    = Ret (take (Z.to_nat (MaxStackDepth s)) (drop 4 g)).
Proof.
  intros Hd. eexists. split.
  - unfold Errorf. apply Wrap_fresh_Ret; [discriminate | | assumption].
    intros [p Hp]. discriminate.
  - unfold Error_Unwrap, Error_Callers, deref.
    rewrite Error_Error_S. unfold deref. rewrite lookup_pushed. simpl.
    repeat split.
Qed.

Lemma Errorf_result_witness :
  exists s',
    Errorf sample_stack T_errorString "oh dear" shallow_state
    = Ret (Some (PtrError (Some 0%nat)), s') /\
    Error_Error 1 (heap s') (Some 0%nat) = Ret "oh dear" /\
    Error_Unwrap (heap s') (Some 0%nat)
    = Ret (Some (fmt_Errorf T_errorString "oh dear")) /\
    Error_Callers (heap s') (Some 0%nat)
    = Ret (take 3 (drop 4 sample_stack)).
Proof.
  apply (Errorf_result sample_stack T_errorString "oh dear" shallow_state).
  simpl. lia.
Defined.

(** ** Where the stack starts *)

Lemma int_add_3_small (skip : Z) :
  (-3 <= skip <= 2 ^ 63 - 4)%Z -> int_add 3 skip = (3 + skip)%Z.
Proof.
  intros H. unfold int_add, int_wrap.
  rewrite Z.mod_small by lia. lia.
Qed.

Lemma int_add_3_nonpositive (skip : Z) :
  is_int skip ->
  (skip <= -3 \/ 2 ^ 63 - 3 <= skip)%Z ->
  (int_add 3 skip <= 0)%Z.
Proof.
  unfold is_int, int_add, int_wrap. intros Hi [H | H].
  - rewrite Z.mod_small by lia. lia.
  - replace (3 + skip + 2 ^ 63)%Z with ((3 + skip - 2 ^ 63) + 1 * 2 ^ 64)%Z by lia.
    rewrite Z.mod_add by lia. rewrite Z.mod_small by lia. lia.
Qed.

Lemma captured_above (depth : Z) (a1 a2 a3 : uintptr) (c : list uintptr) (skip : Z) :
  (0 <= skip)%Z ->
  captured depth (a1 :: a2 :: a3 :: c) (3 + skip)
  = take (Z.to_nat depth) (drop (Z.to_nat skip) c).
Proof.
  intros H. unfold captured.
  rewrite Z2Nat.inj_add by lia. reflexivity.
Qed.

Lemma Callers_pushed (s : state) (e : Error) :
  Error_Callers (heap (pushed s e)) (Some (length (heap s))) = Ret (stack e).
Proof. unfold Error_Callers, deref. now rewrite lookup_pushed. Qed.

(** X2: where the recorded stack starts.  Let [c] be the stack of a
    caller.  [New] called from there records the first [MaxStackDepth]
    entries of [c]; [Wrap] with a skip from 0 to the largest [int] minus 3
    records the first [MaxStackDepth] entries of [c] after [skip] of them;
    so [Wrap] with skip 0 and [New] record the same stack. *)
Theorem Wrap_skip_frames (c : list uintptr) (a1 a2 a3 b1 b2 : uintptr)
    (e : iface) (skip : Z) (s : state) :
  e <> INil -> ~ is_PtrError e ->
  (0 <= MaxStackDepth s)%Z ->
  (0 <= skip <= 2 ^ 63 - 4)%Z ->
  exists s1 s2,
    New (b1 :: b2 :: c) e s = Ret (Some (PtrError (Some (length (heap s)))), s1) /\
    Error_Callers (heap s1) (Some (length (heap s)))
    = Ret (take (Z.to_nat (MaxStackDepth s)) c) /\
    Wrap (a1 :: a2 :: a3 :: c) e skip s
    = Ret (Some (PtrError (Some (length (heap s)))), s2) /\
    Error_Callers (heap s2) (Some (length (heap s)))
    = Ret (take (Z.to_nat (MaxStackDepth s)) (drop (Z.to_nat skip) c)).
Proof.
  intros Hnil Hn Hd Hs. eexists _, _.
  split; [now apply New_Ret |].
  split; [now rewrite Callers_pushed |].
  split; [now apply Wrap_fresh_Ret |].
  rewrite Callers_pushed. simpl.
  rewrite int_add_3_small by lia. rewrite captured_above by lia. reflexivity.
Qed.

Lemma Wrap_skip_frames_witness :
  exists s1 s2,
    New (1 :: 2 :: sample_stack)%Z (IErr (Plain sample_error)) shallow_state
    = Ret (Some (PtrError (Some 0%nat)), s1) /\
    Error_Callers (heap s1) (Some 0%nat) = Ret (take 3 sample_stack) /\
    Wrap (1 :: 3 :: 4 :: sample_stack)%Z (IErr (Plain sample_error)) 2 shallow_state
    = Ret (Some (PtrError (Some 0%nat)), s2) /\
    Error_Callers (heap s2) (Some 0%nat) = Ret (take 3 (drop 2 sample_stack)).
Proof.
  apply (Wrap_skip_frames sample_stack 1%Z 3%Z 4%Z 1%Z 2%Z
           (IErr (Plain sample_error)) 2 shallow_state);
    [discriminate | intros [p Hp]; discriminate | simpl; lia | lia].
Defined.

(** X3: a skip outside the useful range.  When [3+skip] is not positive,
    either because [skip] is at most -3 or because the sum overflows the
    [int] (the three largest skips), [runtime.Callers] skips nothing and
    the recorded stack starts with the frame of [runtime.Callers]
    itself. *)
Theorem Wrap_skip_wraps_around (g : list uintptr) (e : iface) (skip : Z) (s : state) :
  e <> INil -> ~ is_PtrError e ->
  (0 <= MaxStackDepth s)%Z ->
  is_int skip ->
  (skip <= -3 \/ 2 ^ 63 - 3 <= skip)%Z ->
  exists s',
    Wrap g e skip s = Ret (Some (PtrError (Some (length (heap s)))), s') /\
    Error_Callers (heap s') (Some (length (heap s)))
    = Ret (take (Z.to_nat (MaxStackDepth s)) g).
Proof.
  intros Hnil Hn Hd Hi Hs. eexists.
  split; [now apply Wrap_fresh_Ret |].
  rewrite Callers_pushed. simpl. unfold captured.
  pose proof (int_add_3_nonpositive skip Hi Hs) as Hle.
  replace (Z.to_nat (int_add 3 skip)) with 0%nat by lia. reflexivity.
Qed.

Lemma Wrap_skip_wraps_around_witness :
  exists s',
    Wrap sample_stack (IErr (Plain sample_error)) (2 ^ 63 - 1) shallow_state
    = Ret (Some (PtrError (Some 0%nat)), s') /\
    Error_Callers (heap s') (Some 0%nat) = Ret (take 3 sample_stack).
Proof.
  apply (Wrap_skip_wraps_around sample_stack (IErr (Plain sample_error))
           (2 ^ 63 - 1) shallow_state);
    [discriminate | intros [p Hp]; discriminate | simpl; lia
    | unfold is_int; lia | right; lia].
Defined.

(** ** A negative MaxStackDepth *)

(** X4: with a negative [MaxStackDepth] every capture panics in [make]:
    [New] panics on every value, [Wrap] and [WrapPrefix] on every value
    that is neither nil nor a [*Error].  [Wrap] and [WrapPrefix] of a
    [*Error] capture nothing and still return. *)
Theorem negative_depth (g : list uintptr) (e : iface) (pfx : string) (skip : Z)
    (s : state) :
  (MaxStackDepth s < 0)%Z ->
  New g e s = Panic MakesliceLenOutOfRange /\
  (e <> INil -> ~ is_PtrError e ->
   Wrap g e skip s = Panic MakesliceLenOutOfRange /\
   WrapPrefix g e pfx skip s = Panic MakesliceLenOutOfRange) /\
  (forall l inner,
     heap s !! l = Some inner ->
     Wrap g (IErr (PtrError (Some l))) skip s = Ret (Some (PtrError (Some l)), s) /\
     WrapPrefix g (IErr (PtrError (Some l))) pfx skip s
     = Ret (Some (PtrError (Some (length (heap s)))),
            pushed s (mk_Error (Err inner) (stack inner) None
                        (merged_prefix pfx (prefix inner))))).
Proof.
  intros Hd. split; [| split].
  - rewrite New_capture. unfold mbind, M_bind, bind.
    now rewrite capture_negative.
  - intros Hnil Hn. split.
    + rewrite Wrap_not_nil by assumption. unfold mbind, M_bind, bind.
      rewrite wrap_fresh by assumption. now rewrite capture_negative.
    + rewrite WrapPrefix_not_nil by assumption. unfold mbind, M_bind, bind.
      rewrite wrap_fresh by assumption. now rewrite capture_negative.
  - intros l inner Hl. split; [reflexivity | now apply WrapPrefix_PtrError].
Qed.

Lemma negative_depth_witness :
  New sample_stack (IErr (Plain sample_error)) (mk_state (-1) (heap once_wrapped) [])
  = Panic MakesliceLenOutOfRange /\
  (Wrap sample_stack (IErr (Plain sample_error)) 0 (mk_state (-1) (heap once_wrapped) [])
   = Panic MakesliceLenOutOfRange /\
   WrapPrefix sample_stack (IErr (Plain sample_error)) "A" 0
     (mk_state (-1) (heap once_wrapped) [])
   = Panic MakesliceLenOutOfRange) /\
  (Wrap sample_stack (IErr (PtrError (Some 0%nat))) 0
     (mk_state (-1) (heap once_wrapped) [])
   = Ret (Some (PtrError (Some 0%nat)), mk_state (-1) (heap once_wrapped) []) /\
   WrapPrefix sample_stack (IErr (PtrError (Some 0%nat))) "A" 0
     (mk_state (-1) (heap once_wrapped) [])
   = Ret (Some (PtrError (Some 1%nat)),
          mk_state (-1)
            (heap once_wrapped
             ++ [mk_Error (Some (Plain sample_error))
                   [4198912; 4199168; 4199424]%Z None "A"]) [])).
Proof.
  destruct (negative_depth sample_stack (IErr (Plain sample_error)) "A" 0
              (mk_state (-1) (heap once_wrapped) [])) as (H1 & H2 & H3);
    [simpl; lia |].
  split; [exact H1 |]. split.
  - apply H2; [discriminate | intros [p Hp]; discriminate].
  - apply (H3 0%nat (mk_Error (Some (Plain sample_error))
                       [4198912; 4199168; 4199424]%Z None "")).
    reflexivity.
Defined.

(** ** Messages through the constructors *)

Lemma prefixed_empty (msg : string) : prefixed "" msg = msg.
Proof. reflexivity. Qed.

(** X5: [New] and [Wrap] keep the message.  When the value has the message
    [m] (what [Error()] returns for an error, what [%v] prints for
    anything else, ["<nil>"] for nil), the error that [New] returns has the
    message [m], and so has the error that [Wrap] returns for a value that
    is not nil. *)
Theorem New_Wrap_keep_message (g : list uintptr) (e : iface) (skip : Z) (s : state)
    (fuel : nat) (m : string) :
  (0 <= MaxStackDepth s)%Z ->
  message_of fuel (heap s) e = Ret m ->
  (exists p s',
     New g e s = Ret (Some (PtrError p), s') /\
     Error_Error (S fuel) (heap s') p = Ret m) /\
  (e <> INil ->
   exists p s',
     Wrap g e skip s = Ret (Some (PtrError p), s') /\
     Error_Error (S fuel) (heap s') p = Ret m).
Proof.
  intros Hd Hm. split.
  - eexists _, _. split; [now apply New_Ret |].
    erewrite Error_Error_at;
      [ | apply lookup_pushed
        | cbn [Err]; apply underlying_message_app, underlying_as_error; exact Hm ].
    reflexivity.
  - intros Hnil. destruct (classic_ptr e) as [[q ->] | Hn].
    + exists q, s. split; [reflexivity |]. now apply Error_Error_more_fuel.
    + eexists _, _. split; [now apply Wrap_fresh_Ret |].
      erewrite Error_Error_at;
        [ | apply lookup_pushed
          | cbn [Err]; apply underlying_message_app, underlying_as_error; exact Hm ].
      reflexivity.
Qed.

Lemma New_Wrap_keep_message_witness :
  (exists p s',
     New sample_stack (IErr (PtrError (Some 1%nat))) prefixed_once
     = Ret (Some (PtrError p), s') /\
     Error_Error 2 (heap s') p = Ret "read config: open /tmp/x: permission denied") /\
  (IErr (PtrError (Some 1%nat)) <> INil ->
   exists p s',
     Wrap sample_stack (IErr (PtrError (Some 1%nat))) 0 prefixed_once
     = Ret (Some (PtrError p), s') /\
     Error_Error 2 (heap s') p = Ret "read config: open /tmp/x: permission denied").
Proof.
  apply (New_Wrap_keep_message sample_stack (IErr (PtrError (Some 1%nat))) 0
           prefixed_once 1 "read config: open /tmp/x: permission denied");
    [simpl; lia | reflexivity].
Defined.

(** The message after one [WrapPrefix] of a [*Error], whatever the two
    prefixes are. *)
Lemma WrapPrefix_PtrError_message (g : list uintptr) (l : loc) (inner : Error)
    (pfx : string) (skip : Z) (s : state) (fuel : nat) (m0 : string) :
  heap s !! l = Some inner ->
  underlying_message fuel (heap s) (Err inner) = Ret m0 ->
  exists s',
    WrapPrefix g (IErr (PtrError (Some l))) pfx skip s
    = Ret (Some (PtrError (Some (length (heap s)))), s') /\
    Error_Error (S fuel) (heap s') (Some (length (heap s)))
    = Ret (prefixed (merged_prefix pfx (prefix inner)) m0).
Proof.
  intros Hl Hu. eexists. split; [apply (WrapPrefix_PtrError _ _ inner); exact Hl |].
  erewrite Error_Error_at;
    [ | apply lookup_pushed
      | cbn [Err]; apply underlying_message_app; exact Hu ].
  reflexivity.
Qed.

(** X6: [WrapPrefix] with the empty prefix.  On a [*Error] that has no
    prefix the new error has the same message.  On a [*Error] whose prefix
    is not empty the new prefix is [": "] and the old prefix, so the
    message of the new error is the old message with [": "] in front. *)
Theorem WrapPrefix_empty_prefix (g : list uintptr) (l : loc) (inner : Error)
    (skip : Z) (s : state) (fuel : nat) (m : string) :
  heap s !! l = Some inner ->
  Error_Error fuel (heap s) (Some l) = Ret m ->
  exists s',
    WrapPrefix g (IErr (PtrError (Some l))) "" skip s
    = Ret (Some (PtrError (Some (length (heap s)))), s') /\
    (prefix inner = "" ->
     Error_Error fuel (heap s') (Some (length (heap s))) = Ret m) /\
    (prefix inner <> "" ->
     Error_Unwrap (heap s') (Some (length (heap s))) = Ret (Err inner) /\
     Error_Error fuel (heap s') (Some (length (heap s))) = Ret (": " +:+ m)).
Proof.
  intros Hl Hm.
  apply Error_Error_inv in Hm
    as (fuel' & l' & inner' & m0 & -> & [= <-] & Hl' & Hu & ->).
  rewrite Hl in Hl'. injection Hl' as <-.
  destruct (WrapPrefix_PtrError_message g l inner "" skip s fuel' m0 Hl Hu)
    as (s' & HW & HE).
  exists s'. split; [exact HW |]. split.
  - intros Hp. rewrite HE, Hp. reflexivity.
  - intros Hp. split.
    + rewrite (WrapPrefix_PtrError _ _ inner) in HW by exact Hl.
      injection HW as <-. unfold Error_Unwrap, deref.
      now rewrite lookup_pushed.
    + rewrite HE. f_equal. unfold merged_prefix.
      destruct (decide (prefix inner <> "")) as [_ | Hc]; [| contradiction].
      rewrite prefixed_nonempty by (unfold Sprintf_s_colon_s; discriminate).
      rewrite (prefixed_nonempty (prefix inner)) by assumption.
      unfold Sprintf_s_colon_s. reflexivity.
Qed.

Lemma WrapPrefix_empty_prefix_witness :
  exists s',
    WrapPrefix sample_stack (IErr (PtrError (Some 1%nat))) "" 0 prefixed_once
    = Ret (Some (PtrError (Some 2%nat)), s') /\
    (prefix (mk_Error (Some (Plain sample_error)) [4199168; 4199424; 4199680]%Z
               None "read config") = "" ->
     Error_Error 1 (heap s') (Some 2%nat)
     = Ret "read config: open /tmp/x: permission denied") /\
    (prefix (mk_Error (Some (Plain sample_error)) [4199168; 4199424; 4199680]%Z
               None "read config") <> "" ->
     Error_Unwrap (heap s') (Some 2%nat) = Ret (Some (Plain sample_error)) /\
     Error_Error 1 (heap s') (Some 2%nat)
     = Ret ": read config: open /tmp/x: permission denied").
Proof.
  apply (WrapPrefix_empty_prefix sample_stack 1
           (mk_Error (Some (Plain sample_error)) [4199168; 4199424; 4199680]%Z
              None "read config")
           0 prefixed_once 1 "read config: open /tmp/x: permission denied");
    reflexivity.
Defined.

(** ** Chains of prefixes *)

Lemma wrap_prefixes_cons (g : list uintptr) (pfx : string) (rest : list string)
    (e : iface) (s s1 : state) (r : error) :
  WrapPrefix g e pfx 0 s = Ret (r, s1) ->
  wrap_prefixes g (pfx :: rest) e s = wrap_prefixes g rest (to_iface r) s1.
Proof. intros H. cbn [wrap_prefixes]. now erewrite bind_Ret by exact H. Qed.

(** X7: prefixes chain outermost first, to any depth.  After [WrapPrefix]
    has been applied with the non-empty prefixes [p1], ..., [pn] in turn to
    a value that is not nil and has the message [m], the message of the
    result is [pn: ...: p1: m]. *)
Theorem wrap_prefixes_message (g : list uintptr) (pfxs : list string) :
  forall (e : iface) (s : state) (fuel : nat) (m : string),
    Forall (fun pfx => pfx <> "") pfxs ->
    e <> INil ->
    (0 <= MaxStackDepth s)%Z ->
    message_of fuel (heap s) e = Ret m ->
    exists r s',
      wrap_prefixes g pfxs e s = Ret (r, s') /\
      r <> INil /\
      MaxStackDepth s' = MaxStackDepth s /\
      message_of (length pfxs + fuel) (heap s') r = Ret (chained pfxs m).
Proof.
  induction pfxs as [|pfx rest IH]; intros e s fuel m Hne Hnil Hd Hm.
  - exists e, s. now repeat split.
  - apply Forall_cons in Hne as [Hpfx Hrest].
    destruct (WrapPrefix_message g e pfx 0 s fuel m Hnil Hpfx Hd Hm)
      as (p & s1 & HW & Hd1 & Hm1).
    destruct (IH (IErr (PtrError p)) s1 (S fuel) (pfx +:+ ": " +:+ m) Hrest)
      as (r & s' & Hr & Hrn & Hd' & Hm'); [discriminate | lia | exact Hm1 |].
    exists r, s'. split; [| split; [exact Hrn | split; [lia |]]].
    + rewrite (wrap_prefixes_cons _ _ _ _ _ _ _ HW). exact Hr.
    + simpl. rewrite <- Nat.add_succ_r. exact Hm'.
Qed.

Lemma wrap_prefixes_message_witness :
  exists r s',
    wrap_prefixes sample_stack ["query"; "load user"; "handle request"]
      (IErr (Plain sample_error)) shallow_state = Ret (r, s') /\
    r <> INil /\
    MaxStackDepth s' = MaxStackDepth shallow_state /\
    message_of 3 (heap s') r
    = Ret "handle request: load user: query: open /tmp/x: permission denied".
Proof.
  apply (wrap_prefixes_message sample_stack ["query"; "load user"; "handle request"]
           (IErr (Plain sample_error)) shallow_state 0
           "open /tmp/x: permission denied").
  - repeat constructor; discriminate.
  - discriminate.
  - simpl. lia.
  - reflexivity.
Defined.

(** X8: a chain of prefixes on a [*Error] captures nothing.  However many
    times [WrapPrefix] is applied, and from whatever stack, the result is
    a [*Error] with the stack and the underlying error of the first one;
    this holds for every [MaxStackDepth], a negative one too. *)
Theorem wrap_prefixes_shares_stack (g : list uintptr) (pfxs : list string) :
  forall (l : loc) (inner : Error) (s : state),
    heap s !! l = Some inner ->
    exists q s',
      wrap_prefixes g pfxs (IErr (PtrError (Some l))) s
      = Ret (IErr (PtrError (Some q)), s') /\
      Error_Callers (heap s') (Some q) = Ret (stack inner) /\
      Error_Unwrap (heap s') (Some q) = Ret (Err inner) /\
      length (heap s') = (length (heap s) + length pfxs)%nat.
Proof.
  induction pfxs as [|pfx rest IH]; intros l inner s Hl.
  - exists l, s. unfold Error_Callers, Error_Unwrap, deref. rewrite Hl.
    repeat split. simpl. lia.
  - pose proof (WrapPrefix_PtrError g l inner pfx 0 s Hl) as HW.
    destruct (IH (length (heap s))
                (mk_Error (Err inner) (stack inner) None
                   (merged_prefix pfx (prefix inner)))
                (pushed s (mk_Error (Err inner) (stack inner) None
                             (merged_prefix pfx (prefix inner))))
                (lookup_pushed s _))
      as (q & s' & Hr & Hc & Hu & Hlen).
    exists q, s'. rewrite (wrap_prefixes_cons _ _ _ _ _ _ _ HW).
    split; [exact Hr |]. split; [exact Hc |]. split; [exact Hu |].
    rewrite Hlen. unfold pushed. simpl. rewrite length_app. simpl. lia.
Qed.

Lemma wrap_prefixes_shares_stack_witness :
  exists q s',
    wrap_prefixes (drop 2 sample_stack) ["load user"; "handle request"]
      (IErr (PtrError (Some 0%nat))) once_wrapped
    = Ret (IErr (PtrError (Some q)), s') /\
    Error_Callers (heap s') (Some q) = Ret [4198912; 4199168; 4199424]%Z /\
    Error_Unwrap (heap s') (Some q) = Ret (Some (Plain sample_error)) /\
    length (heap s') = 3%nat.
Proof.
  apply (wrap_prefixes_shares_stack (drop 2 sample_stack)
           ["load user"; "handle request"] 0
           (mk_Error (Some (Plain sample_error))
              [4198912; 4199168; 4199424]%Z None "")
           once_wrapped).
  reflexivity.
Defined.

(** ** Errors that exist are left alone *)

Lemma deref_app (h h' : list Error) (p : ptr) (err : Error) :
  deref h p = Ret err -> deref (h ++ h') p = Ret err.
Proof.
  unfold deref. destruct p as [l|]; [| discriminate].
  destruct (h !! l) as [x|] eqn:Hl; [| discriminate].
  intros [= ->]. now rewrite (lookup_app_l_Some _ _ _ _ Hl).
Qed.

Lemma deref_inv (h : list Error) (p : ptr) (err : Error) :
  deref h p = Ret err -> exists l, p = Some l /\ h !! l = Some err.
Proof.
  unfold deref. destruct p as [l|]; [| discriminate].
  destruct (h !! l) as [x|] eqn:Hl; [| discriminate].
  intros [= ->]. now exists l.
Qed.

Lemma outcome_bind_inv {A B} (o : outcome A) (k : A -> outcome B) (b : B) :
  (x ← o; k x) = Ret b -> exists a, o = Ret a /\ k a = Ret b.
Proof.
  destruct o as [a| |]; try discriminate. intros H. now exists a.
Qed.

(** X9: the constructors never change an error that exists.  After [New],
    [Wrap] or [WrapPrefix] has returned, [MaxStackDepth] is what it was,
    no frame has been resolved, and [Error], [Callers], [Unwrap] and
    [TypeName] return for every pointer what they returned before. *)
Theorem constructors_leave_errors_alone (g : list uintptr) (e : iface)
    (pfx : string) (skip : Z) (s s' : state) (r : error) :
  New g e s = Ret (r, s') \/ Wrap g e skip s = Ret (r, s')
  \/ WrapPrefix g e pfx skip s = Ret (r, s') ->
  MaxStackDepth s' = MaxStackDepth s /\
  resolved s' = resolved s /\
  forall p,
    (forall fuel m, Error_Error fuel (heap s) p = Ret m ->
                    Error_Error fuel (heap s') p = Ret m) /\
    (forall st, Error_Callers (heap s) p = Ret st ->
                Error_Callers (heap s') p = Ret st) /\
    (forall u, Error_Unwrap (heap s) p = Ret u ->
               Error_Unwrap (heap s') p = Ret u) /\
    (forall t, Error_TypeName (heap s) p = Ret t ->
               Error_TypeName (heap s') p = Ret t).
Proof.
  intros H. apply constructors_append in H as (new & -> & _). simpl.
  split; [reflexivity |]. split; [reflexivity |]. intros p. repeat split.
  - intros fuel m. apply Error_Error_app.
  - intros st H. unfold Error_Callers in *.
    apply outcome_bind_inv in H as (err & Hd & Hr).
    now rewrite (deref_app _ new _ _ Hd).
  - intros u H. unfold Error_Unwrap in *.
    apply outcome_bind_inv in H as (err & Hd & Hr).
    now rewrite (deref_app _ new _ _ Hd).
  - intros t H. unfold Error_TypeName in *.
    apply outcome_bind_inv in H as (err & Hd & Hr).
    now rewrite (deref_app _ new _ _ Hd).
Qed.

Lemma constructors_leave_errors_alone_witness :
  MaxStackDepth (pushed once_wrapped
                   (mk_Error (Some (Plain sample_error))
                      [4198912; 4199168; 4199424]%Z None "A"))
  = MaxStackDepth once_wrapped /\
  resolved (pushed once_wrapped
              (mk_Error (Some (Plain sample_error))
                 [4198912; 4199168; 4199424]%Z None "A"))
  = resolved once_wrapped /\
  forall p,
    (forall fuel m,
       Error_Error fuel (heap once_wrapped) p = Ret m ->
       Error_Error fuel
         (heap (pushed once_wrapped
                  (mk_Error (Some (Plain sample_error))
                     [4198912; 4199168; 4199424]%Z None "A"))) p = Ret m) /\
    (forall st,
       Error_Callers (heap once_wrapped) p = Ret st ->
       Error_Callers
         (heap (pushed once_wrapped
                  (mk_Error (Some (Plain sample_error))
                     [4198912; 4199168; 4199424]%Z None "A"))) p = Ret st) /\
    (forall u,
       Error_Unwrap (heap once_wrapped) p = Ret u ->
       Error_Unwrap
         (heap (pushed once_wrapped
                  (mk_Error (Some (Plain sample_error))
                     [4198912; 4199168; 4199424]%Z None "A"))) p = Ret u) /\
    (forall t,
       Error_TypeName (heap once_wrapped) p = Ret t ->
       Error_TypeName
         (heap (pushed once_wrapped
                  (mk_Error (Some (Plain sample_error))
                     [4198912; 4199168; 4199424]%Z None "A"))) p = Ret t).
Proof.
  apply (constructors_leave_errors_alone sample_stack
           (IErr (PtrError (Some 0%nat))) "A" 0 once_wrapped _
           (Some (PtrError (Some 1%nat)))).
  right. right. reflexivity.
Defined.

(** ** How deep the chain of Unwrap gets *)

Section UnwrapFacts.

Variable foreign_Unwrap : plain_error -> error.

(** X10: what each constructor adds to the chain that [Unwrap] walks.
    [Unwrap] of nil is nil.  For an error [e] of another type, [Unwrap] of
    [Wrap(e)] and of [WrapPrefix(e)] is [e]: one level, although
    [WrapPrefix] allocates two structs.  [WrapPrefix] of a [*Error] adds no
    level: [Unwrap] of the result is [Unwrap] of the argument.  [New] of a
    [*Error] adds one: [Unwrap] of the result is the argument. *)
Theorem Unwrap_levels (g : list uintptr) (pe : plain_error) (p : ptr)
    (pfx : string) (skip : Z) (s : state) :
  Unwrap foreign_Unwrap (heap s) None = Ret None /\
  ((0 <= MaxStackDepth s)%Z ->
   (exists r s',
      Wrap g (IErr (Plain pe)) skip s = Ret (r, s') /\
      Unwrap foreign_Unwrap (heap s') r = Ret (Some (Plain pe))) /\
   (exists r s',
      WrapPrefix g (IErr (Plain pe)) pfx skip s = Ret (r, s') /\
      Unwrap foreign_Unwrap (heap s') r = Ret (Some (Plain pe))) /\
   (exists r s',
      New g (IErr (PtrError p)) s = Ret (r, s') /\
      Unwrap foreign_Unwrap (heap s') r = Ret (Some (PtrError p)))) /\
  (forall l inner,
     heap s !! l = Some inner ->
     exists r s',
       WrapPrefix g (IErr (PtrError (Some l))) pfx skip s = Ret (r, s') /\
       Unwrap foreign_Unwrap (heap s') r
       = Unwrap foreign_Unwrap (heap s) (Some (PtrError (Some l)))).
Proof.
  split; [reflexivity |]. split.
  - intros Hd. split; [| split].
    + eexists _, _. split.
      * apply Wrap_fresh_Ret; [discriminate | intros [q Hq]; discriminate | exact Hd].
      * unfold Unwrap, Error_Unwrap, deref. now rewrite lookup_pushed.
    + eexists _, _. split.
      * apply WrapPrefix_fresh; [discriminate | intros [q Hq]; discriminate | exact Hd].
      * simpl. unfold Error_Unwrap, deref.
        rewrite list_lookup_middle by (rewrite length_app; simpl; lia).
        reflexivity.
    + eexists _, _. split; [now apply New_Ret |].
      unfold Unwrap, Error_Unwrap, deref. now rewrite lookup_pushed.
  - intros l inner Hl. eexists _, _.
    split; [apply (WrapPrefix_PtrError _ _ inner); exact Hl |].
    simpl. unfold Error_Unwrap, deref. rewrite Hl.
    now rewrite list_lookup_middle by reflexivity.
Qed.

End UnwrapFacts.

Lemma Unwrap_levels_witness :
  (exists r s',
     Wrap sample_stack (IErr (Plain sample_error)) 0 once_wrapped = Ret (r, s') /\
     Unwrap (fun _ => None) (heap s') r = Ret (Some (Plain sample_error))) /\
  (exists r s',
     WrapPrefix sample_stack (IErr (Plain sample_error)) "A" 0 once_wrapped
     = Ret (r, s') /\
     Unwrap (fun _ => None) (heap s') r = Ret (Some (Plain sample_error))) /\
  (exists r s',
     New sample_stack (IErr (PtrError (Some 0%nat))) once_wrapped = Ret (r, s') /\
     Unwrap (fun _ => None) (heap s') r = Ret (Some (PtrError (Some 0%nat)))).
Proof.
  apply (proj1 (proj2 (Unwrap_levels (fun _ => None) sample_stack sample_error
                         (Some 0%nat) "A" 0 once_wrapped))).
  simpl. lia.
Defined.

(** ** Frames after wrapping, and formatting twice *)

Lemma TypeName_same_messages (h h' : list Error) (p : ptr) :
  same_messages h h' -> Error_TypeName h p = Error_TypeName h' p.
Proof.
  intros Hs. unfold Error_TypeName, deref. destruct p as [l|]; [| reflexivity].
  unfold same_messages in Hs. rewrite Forall2_lookup in Hs.
  pose proof (Hs l) as Hl. revert Hl.
  destruct (h !! l) as [e|], (h' !! l) as [e'|]; intros Hl;
    inversion Hl as [? ? [HE HP] |]; [| reflexivity].
  simpl. now rewrite HE.
Qed.

Section MoreFramesFacts.

Variable sym : symtab.
Variable StackFrame_String : StackFrame -> string.

(** X11: resolved frames do not travel with the stack.  [WrapPrefix] of a
    [*Error] whose frames are resolved returns an error whose frames are
    not: its first [StackFrames] resolves every program counter of the
    shared stack once more and returns the frames of the wrapped error,
    which keeps its own. *)
Theorem WrapPrefix_resolves_again (g : list uintptr) (l : loc) (inner : Error)
    (pfx : string) (skip : Z) (s : state) :
  heap s !! l = Some inner ->
  frames inner = Some (map (NewStackFrame sym) (stack inner)) ->
  exists s1 s2,
    WrapPrefix g (IErr (PtrError (Some l))) pfx skip s
    = Ret (Some (PtrError (Some (length (heap s)))), s1) /\
    (exists outer, heap s1 !! length (heap s) = Some outer /\ frames outer = None) /\
    Error_StackFrames sym (Some (length (heap s))) s1
    = Ret (map (NewStackFrame sym) (stack inner), s2) /\
    resolved s2 = resolved s ++ stack inner /\
    Error_StackFrames sym (Some l) s2
    = Ret (map (NewStackFrame sym) (stack inner), s2).
Proof.
  intros Hl Hf.
  set (outer := mk_Error (Err inner) (stack inner) None
                  (merged_prefix pfx (prefix inner))).
  pose proof (StackFrames_first sym (length (heap s)) outer (pushed s outer)
                (lookup_pushed s outer) eq_refl) as H1.
  eexists _, _.
  split; [apply (WrapPrefix_PtrError _ _ inner); exact Hl |].
  split; [exists outer; split; [apply lookup_pushed | reflexivity] |].
  split; [exact H1 |].
  split; [reflexivity |].
  apply (StackFrames_again sym l inner); [| exact Hf].
  unfold resolved_state, pushed. simpl.
  rewrite list_lookup_insert_ne
    by (apply lookup_lt_Some in Hl; lia).
  now apply lookup_app_l_Some.
Qed.

(** X12: [ErrorStack] twice.  In a well-formed store [ErrorStack] on an
    error returns the header (the label of the type, a space, the message
    and a newline) followed by the rendering of its frames; a second
    [ErrorStack] returns the same string and changes nothing; and [Stack]
    then returns exactly the rendering of the frames, the part of that
    string after the header. *)
Theorem ErrorStack_twice (fuel : nat) (l : loc) (s : state) :
  wf_heap (heap s) -> (l < length (heap s))%nat -> (l < fuel)%nat ->
  exists err m0 s',
    heap s !! l = Some err /\
    underlying_message (fuel - 1) (heap s) (Err err) = Ret m0 /\
    Error_ErrorStack sym StackFrame_String fuel (Some l) s
    = Ret ((((type_label (Err err) +:+ " ") +:+ prefixed (prefix err) m0)
            +:+ newline)
           +:+ write_frames StackFrame_String (shown_frames sym err), s') /\
    Error_ErrorStack sym StackFrame_String fuel (Some l) s'
    = Ret ((((type_label (Err err) +:+ " ") +:+ prefixed (prefix err) m0)
            +:+ newline)
           +:+ write_frames StackFrame_String (shown_frames sym err), s') /\
    Error_Stack sym StackFrame_String (Some l) s'
    = Ret (write_frames StackFrame_String (shown_frames sym err), s').
Proof.
  intros Hwf Hl Hfuel.
  destruct (Error_Error_total _ Hwf fuel l Hfuel Hl) as (err & m0 & Herr & Hm0 & Hmsg).
  pose proof (TypeName_label _ l err Herr (Hwf l err Herr)) as Hlabel.
  destruct (StackFrames_shown sym l err s Herr) as (s' & H1 & H2 & Hsame).
  exists err, m0, s'.
  split; [exact Herr |]. split; [exact Hm0 |]. split; [| split].
  - unfold Error_ErrorStack.
    erewrite bind_Ret by (apply lift_Ret; exact Hlabel).
    erewrite bind_Ret by (apply lift_Ret; exact Hmsg).
    erewrite bind_Ret by (apply Stack_Ret; exact H1).
    reflexivity.
  - unfold Error_ErrorStack.
    erewrite bind_Ret
      by (apply lift_Ret; rewrite <- (TypeName_same_messages _ _ _ Hsame);
          exact Hlabel).
    erewrite bind_Ret
      by (apply lift_Ret; rewrite <- (Error_Error_same_messages _ _ Hsame);
          exact Hmsg).
    erewrite bind_Ret by (apply Stack_Ret; exact H2).
    reflexivity.
  - apply Stack_Ret. exact H2.
Qed.

(** X13: nothing left to capture.  When [MaxStackDepth] is 0, or the skip
    is at least the depth of the caller's stack, [Wrap] still returns an
    error.  Its stack is empty, [StackFrames] returns no frame and resolves
    nothing, the empty result is memoized like any other, and [Stack]
    returns the empty string. *)
Theorem Wrap_empty_stack (c : list uintptr) (a1 a2 a3 : uintptr) (e : iface)
    (skip : Z) (s : state) :
  e <> INil -> ~ is_PtrError e ->
  (0 <= MaxStackDepth s)%Z ->
  (0 <= skip <= 2 ^ 63 - 4)%Z ->
  (MaxStackDepth s = 0 \/ Z.of_nat (length c) <= skip)%Z ->
  exists s1 s2,
    Wrap (a1 :: a2 :: a3 :: c) e skip s
    = Ret (Some (PtrError (Some (length (heap s)))), s1) /\
    Error_Callers (heap s1) (Some (length (heap s))) = Ret [] /\
    Error_StackFrames sym (Some (length (heap s))) s1 = Ret ([], s2) /\
    resolved s2 = resolved s /\
    Error_StackFrames sym (Some (length (heap s))) s2 = Ret ([], s2) /\
    Error_Stack sym StackFrame_String (Some (length (heap s))) s1 = Ret ("", s2).
Proof.
  intros Hnil Hn Hd Hs Hempty.
  assert (captured (MaxStackDepth s) (a1 :: a2 :: a3 :: c) (int_add 3 skip) = [])
    as Hcap.
  { rewrite int_add_3_small by lia. rewrite captured_above by lia.
    destruct Hempty as [-> | Hlen]; [reflexivity |].
    rewrite drop_ge by lia. apply take_nil. }
  pose proof (Wrap_fresh_Ret (a1 :: a2 :: a3 :: c) e skip s Hnil Hn Hd) as HW.
  rewrite Hcap in HW.
  set (err := mk_Error (Some (as_error e)) [] None "") in *.
  pose proof (StackFrames_first sym (length (heap s)) err (pushed s err)
                (lookup_pushed s err) eq_refl) as H1.
  pose proof (StackFrames_again sym (length (heap s)) _ [] _
                (resolved_state_lookup sym (length (heap s)) err (pushed s err)
                   (lookup_pushed s err))
                eq_refl) as H2.
  eexists _, _. split; [exact HW |].
  split; [now rewrite Callers_pushed |].
  split; [exact H1 |].
  split; [simpl; apply app_nil_r |].
  split; [exact H2 |].
  apply (Stack_Ret sym StackFrame_String _ [] _ _ H1).
Qed.

End MoreFramesFacts.

Lemma WrapPrefix_resolves_again_witness :
  let inner := mk_Error (Some (Plain sample_error)) [4198912; 4199168]%Z
                 (Some (map (NewStackFrame sample_symtab) [4198912; 4199168]%Z)) "" in
  let s := mk_state 3 [inner] [4198912; 4199168]%Z in
  exists s1 s2,
    WrapPrefix sample_stack (IErr (PtrError (Some 0%nat))) "A" 0 s
    = Ret (Some (PtrError (Some 1%nat)), s1) /\
    (exists outer, heap s1 !! 1%nat = Some outer /\ frames outer = None) /\
    Error_StackFrames sample_symtab (Some 1%nat) s1
    = Ret (map (NewStackFrame sample_symtab) [4198912; 4199168]%Z, s2) /\
    resolved s2 = [4198912; 4199168; 4198912; 4199168]%Z /\
    Error_StackFrames sample_symtab (Some 0%nat) s2
    = Ret (map (NewStackFrame sample_symtab) [4198912; 4199168]%Z, s2).
Proof.
  apply (WrapPrefix_resolves_again sample_symtab sample_stack 0
           (mk_Error (Some (Plain sample_error)) [4198912; 4199168]%Z
              (Some (map (NewStackFrame sample_symtab) [4198912; 4199168]%Z)) "")
           "A" 0
           (mk_state 3
              [mk_Error (Some (Plain sample_error)) [4198912; 4199168]%Z
                 (Some (map (NewStackFrame sample_symtab) [4198912; 4199168]%Z)) ""]
              [4198912; 4199168]%Z));
    reflexivity.
Defined.

Lemma ErrorStack_twice_witness :
  exists err m0 s',
    heap once_wrapped !! 0%nat = Some err /\
    underlying_message 0 (heap once_wrapped) (Err err) = Ret m0 /\
    Error_ErrorStack sample_symtab sample_String 1 (Some 0%nat) once_wrapped
    = Ret ((((type_label (Err err) +:+ " ") +:+ prefixed (prefix err) m0)
            +:+ newline)
           +:+ write_frames sample_String (shown_frames sample_symtab err), s') /\
    Error_ErrorStack sample_symtab sample_String 1 (Some 0%nat) s'
    = Ret ((((type_label (Err err) +:+ " ") +:+ prefixed (prefix err) m0)
            +:+ newline)
           +:+ write_frames sample_String (shown_frames sample_symtab err), s') /\
    Error_Stack sample_symtab sample_String (Some 0%nat) s'
    = Ret (write_frames sample_String (shown_frames sample_symtab err), s').
Proof.
  apply (ErrorStack_twice sample_symtab sample_String 1 0 once_wrapped).
  - intros l err Hl. destruct l as [|l]; [| discriminate].
    injection Hl as <-. simpl. now eexists.
  - simpl. lia.
  - lia.
Defined.

Lemma Wrap_empty_stack_witness :
  exists s1 s2,
    Wrap (1 :: 2 :: 3 :: [4198912; 4199168])%Z (IErr (Plain sample_error)) 2
      shallow_state
    = Ret (Some (PtrError (Some 0%nat)), s1) /\
    Error_Callers (heap s1) (Some 0%nat) = Ret [] /\
    Error_StackFrames sample_symtab (Some 0%nat) s1 = Ret ([], s2) /\
    resolved s2 = [] /\
    Error_StackFrames sample_symtab (Some 0%nat) s2 = Ret ([], s2) /\
    Error_Stack sample_symtab sample_String (Some 0%nat) s1 = Ret ("", s2).
Proof.
  apply (Wrap_empty_stack sample_symtab sample_String [4198912; 4199168]%Z
           1%Z 2%Z 3%Z (IErr (Plain sample_error)) 2 shallow_state);
    [discriminate | intros [p Hp]; discriminate | simpl; lia | lia
    | right; simpl; lia].
Defined.

(** ** Type names, messages and nil pointers *)

(** X14: the type name after construction.  [New] of nil or of a value
    that is not an error gives the type name of the error that
    [fmt.Errorf] makes; [New] of a [*Error] gives ["*errors.Error"];
    [Wrap] of an [uncaughtPanic] gives ["panic"]; and [WrapPrefix] of a
    [*Error] gives the type name of that error. *)
Theorem TypeName_after_construction (g : list uintptr) (pfx : string) (skip : Z)
    (s : state) :
  (0 <= MaxStackDepth s)%Z ->
  (forall e, e = INil \/ (exists v, e = IOther v) ->
     exists s',
       New g e s = Ret (Some (PtrError (Some (length (heap s)))), s') /\
       Error_TypeName (heap s') (Some (length (heap s)))
       = Ret "*errors.errorString") /\
  (forall p,
     exists s',
       New g (IErr (PtrError p)) s
       = Ret (Some (PtrError (Some (length (heap s)))), s') /\
       Error_TypeName (heap s') (Some (length (heap s))) = Ret "*errors.Error") /\
  (forall pe, etype pe = T_uncaughtPanic ->
     exists s',
       Wrap g (IErr (Plain pe)) skip s
       = Ret (Some (PtrError (Some (length (heap s)))), s') /\
       Error_TypeName (heap s') (Some (length (heap s))) = Ret "panic") /\
  (forall l inner label,
     heap s !! l = Some inner ->
     Error_TypeName (heap s) (Some l) = Ret label ->
     exists s',
       WrapPrefix g (IErr (PtrError (Some l))) pfx skip s
       = Ret (Some (PtrError (Some (length (heap s)))), s') /\
       Error_TypeName (heap s') (Some (length (heap s))) = Ret label).
Proof.
  intros Hd. split; [| split; [| split]].
  - intros e He. eexists. split; [now apply New_Ret |].
    unfold Error_TypeName, deref. rewrite lookup_pushed.
    destruct He as [-> | [v ->]]; reflexivity.
  - intros p. eexists. split; [now apply New_Ret |].
    unfold Error_TypeName, deref. now rewrite lookup_pushed.
  - intros pe Hpe. eexists. split.
    + apply Wrap_fresh_Ret; [discriminate | intros [q Hq]; discriminate | exact Hd].
    + unfold Error_TypeName, deref. rewrite lookup_pushed. simpl. now rewrite Hpe.
  - intros l inner label Hl Ht. eexists.
    split; [apply (WrapPrefix_PtrError _ _ inner); exact Hl |].
    unfold Error_TypeName, deref in *. rewrite lookup_pushed. rewrite Hl in Ht.
    exact Ht.
Qed.

Lemma TypeName_after_construction_witness :
  (forall e, e = INil \/ (exists v, e = IOther v) ->
     exists s',
       New sample_stack e once_wrapped = Ret (Some (PtrError (Some 1%nat)), s') /\
       Error_TypeName (heap s') (Some 1%nat) = Ret "*errors.errorString") /\
  (forall p,
     exists s',
       New sample_stack (IErr (PtrError p)) once_wrapped
       = Ret (Some (PtrError (Some 1%nat)), s') /\
       Error_TypeName (heap s') (Some 1%nat) = Ret "*errors.Error") /\
  (forall pe, etype pe = T_uncaughtPanic ->
     exists s',
       Wrap sample_stack (IErr (Plain pe)) 0 once_wrapped
       = Ret (Some (PtrError (Some 1%nat)), s') /\
       Error_TypeName (heap s') (Some 1%nat) = Ret "panic") /\
  (forall l inner label,
     heap once_wrapped !! l = Some inner ->
     Error_TypeName (heap once_wrapped) (Some l) = Ret label ->
     exists s',
       WrapPrefix sample_stack (IErr (PtrError (Some l))) "A" 0 once_wrapped
       = Ret (Some (PtrError (Some 1%nat)), s') /\
       Error_TypeName (heap s') (Some 1%nat) = Ret label).
Proof.
  apply (TypeName_after_construction sample_stack "A" 0 once_wrapped).
  simpl. lia.
Defined.

(** X15: the accessors return on what the constructors build.  In a
    well-formed store, and for a value that is neither a nil [*Error] nor
    an error of another type whose own method [Error] panics (a nil
    pointer of such a type), the store after [New], [Wrap] or [WrapPrefix]
    is well formed, and on the error they return [Error] and [TypeName]
    return without a panic; fuel equal to the size of the store is enough
    for [Error]. *)
Theorem constructed_errors_have_messages (g : list uintptr) (e : iface)
    (pfx : string) (skip : Z) (s s' : state) (r : error) :
  wf_heap (heap s) -> valid_input (heap s) e ->
  New g e s = Ret (r, s') \/ Wrap g e skip s = Ret (r, s')
  \/ WrapPrefix g e pfx skip s = Ret (r, s') ->
  wf_heap (heap s') /\
  forall p, r = Some (PtrError p) ->
    exists m label,
      Error_Error (length (heap s')) (heap s') p = Ret m /\
      Error_TypeName (heap s') p = Ret label.
Proof.
  intros Hwf Hv H.
  assert (wf_heap (heap s') /\ valid_input (heap s') (to_iface r)) as [Hwf' Hv'].
  { destruct H as [H | [H | H]];
      [eapply New_wf | eapply Wrap_wf | eapply WrapPrefix_wf]; eassumption. }
  split; [exact Hwf' |]. intros p ->.
  destruct (proj1 Hv' p eq_refl) as (l & -> & Hl).
  destruct (Error_Error_total _ Hwf' (length (heap s')) l Hl Hl)
    as (err & m0 & Herr & _ & Hm).
  destruct (TypeName_total _ l err Herr (Hwf' l err Herr)) as [label Hlabel].
  eauto.
Qed.

Lemma constructed_errors_have_messages_witness :
  wf_heap (heap prefixed_once) /\
  forall p, Some (PtrError (Some 1%nat)) = Some (PtrError p) ->
    exists m label,
      Error_Error (length (heap prefixed_once)) (heap prefixed_once) p = Ret m /\
      Error_TypeName (heap prefixed_once) p = Ret label.
Proof.
  apply (constructed_errors_have_messages sample_stack (IErr (Plain sample_error))
           "read config" 0 shallow_state prefixed_once
           (Some (PtrError (Some 1%nat)))).
  - intros l err Hl. destruct l; discriminate.
  - split; [intros p Hp; discriminate |].
    intros pe [= <-]. now eexists.
  - right. right. reflexivity.
Defined.

(** X16: a nil [*Error] inside an interface.  [Wrap] returns it as it is,
    so the result is an error that is not nil although the pointer is;
    [Error] on it panics; [WrapPrefix] panics when it reads the prefix;
    [New] stores it, and the new error has a type name but its [Error]
    panics. *)
Theorem nil_pointer_in_interface (g : list uintptr) (pfx : string) (skip : Z)
    (s : state) (fuel : nat) :
  (0 <= MaxStackDepth s)%Z ->
  Wrap g (IErr (PtrError None)) skip s = Ret (Some (PtrError None), s) /\
  Error_Error (S fuel) (heap s) None = Panic NilDereference /\
  WrapPrefix g (IErr (PtrError None)) pfx skip s = Panic NilDereference /\
  exists s',
    New g (IErr (PtrError None)) s
    = Ret (Some (PtrError (Some (length (heap s)))), s') /\
    Error_TypeName (heap s') (Some (length (heap s))) = Ret "*errors.Error" /\
    Error_Error (S (S fuel)) (heap s') (Some (length (heap s)))
    = Panic NilDereference.
Proof.
  intros Hd. repeat split.
  eexists. split; [now apply New_Ret |]. split.
  - unfold Error_TypeName, deref. now rewrite lookup_pushed.
  - rewrite Error_Error_S. unfold deref. now rewrite lookup_pushed.
Qed.

Lemma nil_pointer_in_interface_witness :
  Wrap sample_stack (IErr (PtrError None)) 0 shallow_state
  = Ret (Some (PtrError None), shallow_state) /\
  Error_Error 1 (heap shallow_state) None = Panic NilDereference /\
  WrapPrefix sample_stack (IErr (PtrError None)) "A" 0 shallow_state
  = Panic NilDereference /\
  exists s',
    New sample_stack (IErr (PtrError None)) shallow_state
    = Ret (Some (PtrError (Some 0%nat)), s') /\
    Error_TypeName (heap s') (Some 0%nat) = Ret "*errors.Error" /\
    Error_Error 2 (heap s') (Some 0%nat) = Panic NilDereference.
Proof.
  apply (nil_pointer_in_interface sample_stack "A" 0 shallow_state 0).
  simpl. lia.
Defined.

(** ** Calls of StackFrames after the frames are stored *)

Section SettledFacts.

Variable sym : symtab.
Variable stk : list uintptr.

Lemma no_AtMake_insert (ts : list point) (t : nat) (pt : point) :
  pt <> AtMake ->
  (forall t', ts !! t' <> Some AtMake) ->
  forall t', <[t := pt]> ts !! t' <> Some AtMake.
Proof.
  intros Hpt Hts t' Hl.
  apply list_lookup_insert_Some in Hl as [(_ & -> & _) | (_ & Hl)];
    [congruence | now apply (Hts t')].
Qed.

Lemma settled_step (a t : nat) (c : config) :
  settled sym stk a c -> settled sym stk a (step_at sym stk t c).
Proof.
  intros (Hf & Ha & Hm). unfold step_at.
  destruct (threads c !! t) as [pt|] eqn:Ht; [| now repeat split].
  destruct pt as [| |i| |r|fs]; simpl.
  - rewrite Hf. repeat split; try assumption.
    now apply no_AtMake_insert.
  - now destruct (Hm t).
  - destruct (stk !! i) as [pc|] eqn:Hi.
    + rewrite Hf. repeat split; simpl; try assumption.
      * rewrite list_lookup_alter_eq, Ha. simpl. f_equal.
        apply list_insert_id.
        change (map (NewStackFrame sym) stk) with (NewStackFrame sym <$> stk).
        now rewrite list_lookup_fmap, Hi.
      * now apply no_AtMake_insert.
    + repeat split; try assumption. now apply no_AtMake_insert.
  - repeat split; try assumption. now apply no_AtMake_insert.
  - repeat split; try assumption. now apply no_AtMake_insert.
  - now repeat split.
Qed.

Lemma sees_all_step (a t t0 : nat) (c : config) (pt0 : point) :
  settled sym stk a c ->
  threads c !! t0 = Some pt0 ->
  sees_all sym stk a pt0 ->
  exists pt1,
    threads (step_at sym stk t c) !! t0 = Some pt1 /\ sees_all sym stk a pt1.
Proof.
  intros (Hf & Ha & Hm) Ht0 Hs. unfold step_at.
  destruct (threads c !! t) as [pt|] eqn:Ht; [| eauto].
  destruct (step_thread sym stk (mem c) pt) as [[m' pt']|] eqn:Hstep; [| eauto].
  simpl. destruct (decide (t = t0)) as [-> | Hne].
  - rewrite list_lookup_insert_eq by (eapply lookup_lt_Some; exact Ht0).
    exists pt'. split; [reflexivity |].
    rewrite Ht in Ht0. injection Ht0 as ->.
    destruct pt0 as [| |i| |r|fs]; simpl in *.
    + rewrite Hf in Hstep. now injection Hstep as <- <-.
    + contradiction.
    + destruct (stk !! i); [rewrite Hf in Hstep |];
        now injection Hstep as <- <-.
    + injection Hstep as <- <-. exact Hf.
    + injection Hstep as <- <-. rewrite Hs, Ha. reflexivity.
    + discriminate.
  - exists pt0. now rewrite list_lookup_insert_ne.
Qed.

(** X17: calls that come after the frames are stored.  Once the field
    holds every frame of the stack and no goroutine is between the test
    and [make], this stays so however the goroutines run, and every call
    of [StackFrames] that has not returned yet, one that starts now too,
    returns and reads exactly the stored frames. *)
Theorem settled_calls_see_all (a : nat) (sched : list nat) :
  forall c,
    settled sym stk a c ->
    settled sym stk a (run sym stk sched c) /\
    (forall t pt,
       threads c !! t = Some pt -> sees_all sym stk a pt ->
       exists pt',
         threads (run sym stk sched c) !! t = Some pt' /\
         sees_all sym stk a pt') /\
    (forall t fs,
       threads c !! t = Some AtCheck ->
       threads (run sym stk sched c) !! t = Some (Observed fs) ->
       fs = map (NewStackFrame sym) stk).
Proof.
  unfold run. induction sched as [|t0 sched IH]; intros c Hc.
  - split; [exact Hc |]. split; [eauto |].
    intros t fs Ht Ho. simpl in Ho. congruence.
  - simpl. destruct (IH (step_at sym stk t0 c) (settled_step a t0 c Hc))
      as (H1 & H2 & _).
    split; [exact H1 |].
    assert (forall t pt,
              threads c !! t = Some pt -> sees_all sym stk a pt ->
              exists pt',
                threads (foldl (fun c t => step_at sym stk t c)
                           (step_at sym stk t0 c) sched) !! t = Some pt' /\
                sees_all sym stk a pt') as H3.
    { intros t pt Ht Hs.
      destruct (sees_all_step a t0 t c pt Hc Ht Hs) as (pt1 & Ht1 & Hs1).
      now apply (H2 t pt1). }
    split; [exact H3 |].
    intros t fs Ht Ho. destruct (H3 t AtCheck Ht I) as (pt' & Ht' & Hs').
    rewrite Ho in Ht'. injection Ht' as <-. exact Hs'.
Qed.

End SettledFacts.

Lemma settled_calls_see_all_witness :
  let c := run sample_symtab [4198912%Z] [0; 0; 0; 0; 0; 0]%nat (init_config 2) in
  settled sample_symtab [4198912%Z] 0
    (run sample_symtab [4198912%Z] [1; 1; 1]%nat c) /\
  (forall t pt,
     threads c !! t = Some pt -> sees_all sample_symtab [4198912%Z] 0 pt ->
     exists pt',
       threads (run sample_symtab [4198912%Z] [1; 1; 1]%nat c) !! t = Some pt' /\
       sees_all sample_symtab [4198912%Z] 0 pt') /\
  (forall t fs,
     threads c !! t = Some AtCheck ->
     threads (run sample_symtab [4198912%Z] [1; 1; 1]%nat c) !! t
     = Some (Observed fs) ->
     fs = map (NewStackFrame sample_symtab) [4198912%Z]).
Proof.
  apply (settled_calls_see_all sample_symtab [4198912%Z] 0 [1; 1; 1]%nat).
  split; [reflexivity |]. split; [reflexivity |].
  intros t. vm_compute. destruct t as [|[|t]]; discriminate.
Defined.

(** ** One goroutine alone *)

Section SoloFacts.

Variable sym : symtab.
Variable stk : list uintptr.

Lemma run_app (sched1 sched2 : list nat) (c : config) :
  run sym stk (sched1 ++ sched2) c = run sym stk sched2 (run sym stk sched1 c).
Proof. unfold run. apply foldl_app. Qed.

Lemma solo_loop (k : nat) :
  forall (i : nat) (arr : list StackFrame),
    length arr = length stk ->
    (i + k = length stk)%nat ->
    run sym stk (replicate k 0%nat)
      (mk_config (mk_shared [arr] (Some 0%nat)) [AtLoop i])
    = mk_config
        (mk_shared [take i arr ++ map (NewStackFrame sym) (drop i stk)] (Some 0%nat))
        [AtLoop (length stk)].
Proof.
  induction k as [|k IH]; intros i arr Hlen Hi.
  - simpl. replace i with (length stk) by lia.
    rewrite drop_all, app_nil_r, <- Hlen, firstn_all. now rewrite Hlen.
  - destruct (lookup_lt_is_Some_2 stk i) as [pc Hpc]; [lia |].
    change (replicate (S k) 0%nat) with ([0%nat] ++ replicate k 0%nat).
    rewrite run_app.
    assert (run sym stk [0%nat]
              (mk_config (mk_shared [arr] (Some 0%nat)) [AtLoop i])
            = mk_config
                (mk_shared [<[i := NewStackFrame sym pc]> arr] (Some 0%nat))
                [AtLoop (S i)]) as ->.
    { unfold run. simpl. unfold step_at. simpl. now rewrite Hpc. }
    rewrite IH by (rewrite ?length_insert; lia).
    do 3 f_equal.
    rewrite (take_S_r _ _ (NewStackFrame sym pc))
      by (apply list_lookup_insert_eq; lia).
    rewrite take_insert_ge by lia.
    rewrite (drop_S _ _ _ Hpc). rewrite <- app_assoc. reflexivity.
Qed.

(** X18: one goroutine alone.  A single goroutine that runs [StackFrames]
    to the end in the interleaved model stores and reads exactly the
    frames that the method returns on an error with that stack and no
    frames. *)
Theorem solo_run_is_StackFrames (l : loc) (err : Error) (s : state) :
  heap s !! l = Some err ->
  frames err = None ->
  stack err = stk ->
  exists fs s',
    Error_StackFrames sym (Some l) s = Ret (fs, s') /\
    run sym stk (replicate (length stk + 5) 0%nat) (init_config 1)
    = mk_config (mk_shared [fs] (Some 0%nat)) [Observed fs].
Proof.
  intros Hl Hf Hstk. eexists _, _.
  split; [apply (StackFrames_first sym l err); assumption |].
  rewrite Hstk.
  replace (length stk + 5)%nat with (2 + (length stk + 3))%nat by lia.
  rewrite (replicate_add 2), run_app.
  rewrite replicate_add, run_app.
  change (run sym stk (replicate 2 0%nat) (init_config 1))
    with (mk_config
            (mk_shared [replicate (length stk) zero_StackFrame] (Some 0%nat))
            [AtLoop 0]).
  rewrite (solo_loop (length stk) 0) by (rewrite ?length_replicate; lia).
  simpl. unfold run. simpl. unfold step_at. simpl.
  rewrite (proj2 (lookup_ge_None stk (length stk))) by lia. simpl.
  reflexivity.
Qed.

End SoloFacts.

Lemma solo_run_is_StackFrames_witness :
  exists fs s',
    Error_StackFrames sample_symtab (Some 0%nat) once_wrapped = Ret (fs, s') /\
    run sample_symtab [4198912; 4199168; 4199424]%Z (replicate 8 0%nat)
      (init_config 1)
    = mk_config (mk_shared [fs] (Some 0%nat)) [Observed fs].
Proof.
  apply (solo_run_is_StackFrames sample_symtab [4198912; 4199168; 4199424]%Z 0
           (mk_Error (Some (Plain sample_error))
              [4198912; 4199168; 4199424]%Z None "")
           once_wrapped);
    reflexivity.
Defined.

(** ** What frame resolution touches *)

Section TouchFacts.

Variable sym : symtab.

(** X19: [StackFrames] writes the field [frames] of its receiver and
    nothing else.  After the call [MaxStackDepth] and every other struct
    are what they were, and the receiver has the same underlying error,
    stack and prefix, with the returned frames stored. *)
Theorem StackFrames_touches_frames_only (l : loc) (err : Error) (s : state) :
  heap s !! l = Some err ->
  exists fs s',
    Error_StackFrames sym (Some l) s = Ret (fs, s') /\
    MaxStackDepth s' = MaxStackDepth s /\
    (forall l', l' <> l -> heap s' !! l' = heap s !! l') /\
    heap s' !! l = Some (with_frames err (Some fs)).
Proof.
  intros Hl. destruct (frames err) as [fs|] eqn:Hf.
  - exists fs, s. split; [now apply (StackFrames_again sym l err) |].
    split; [reflexivity |]. split; [reflexivity |].
    now rewrite <- Hf, with_frames_id.
  - eexists _, _. split; [apply (StackFrames_first sym l err); assumption |].
    unfold resolved_state. simpl. split; [reflexivity |]. split.
    + intros l' Hne. now apply list_lookup_insert_ne.
    + apply list_lookup_insert_eq. eapply lookup_lt_Some. exact Hl.
Qed.

(** X20: the trace of a new error has at most [MaxStackDepth] frames.
    [StackFrames] on the error that [New] returns gives one frame for each
    of the first [MaxStackDepth] entries of the caller's stack. *)
Theorem New_then_StackFrames (c : list uintptr) (b1 b2 : uintptr) (e : iface)
    (s : state) :
  (0 <= MaxStackDepth s)%Z ->
  exists s1 s2,
    New (b1 :: b2 :: c) e s = Ret (Some (PtrError (Some (length (heap s)))), s1) /\
    Error_StackFrames sym (Some (length (heap s))) s1
    = Ret (map (NewStackFrame sym) (take (Z.to_nat (MaxStackDepth s)) c), s2) /\
    (Z.of_nat (length (map (NewStackFrame sym) (take (Z.to_nat (MaxStackDepth s)) c)))
     <= MaxStackDepth s)%Z.
Proof.
  intros Hd.
  set (err := mk_Error (Some (as_error e))
                (captured (MaxStackDepth s) (b1 :: b2 :: c) 2) None "").
  pose proof (StackFrames_first sym (length (heap s)) err (pushed s err)
                (lookup_pushed s err) eq_refl) as H1.
  eexists _, _. split; [now apply New_Ret |]. split; [exact H1 |].
  rewrite length_map, length_take. lia.
Qed.

End TouchFacts.

Lemma StackFrames_touches_frames_only_witness :
  exists fs s',
    Error_StackFrames sample_symtab (Some 1%nat) prefixed_once = Ret (fs, s') /\
    MaxStackDepth s' = MaxStackDepth prefixed_once /\
    (forall l', l' <> 1%nat -> heap s' !! l' = heap prefixed_once !! l') /\
    heap s' !! 1%nat
    = Some (with_frames
              (mk_Error (Some (Plain sample_error))
                 [4199168; 4199424; 4199680]%Z None "read config")
              (Some fs)).
Proof.
  apply (StackFrames_touches_frames_only sample_symtab 1
           (mk_Error (Some (Plain sample_error))
              [4199168; 4199424; 4199680]%Z None "read config")
           prefixed_once).
  reflexivity.
Defined.

Lemma New_then_StackFrames_witness :
  exists s1 s2,
    New (1 :: 2 :: sample_stack)%Z (IErr (Plain sample_error)) shallow_state
    = Ret (Some (PtrError (Some 0%nat)), s1) /\
    Error_StackFrames sample_symtab (Some 0%nat) s1
    = Ret (map (NewStackFrame sample_symtab) (take 3 sample_stack), s2) /\
    (Z.of_nat (length (map (NewStackFrame sample_symtab) (take 3 sample_stack)))
     <= 3)%Z.
Proof.
  apply (New_then_StackFrames sample_symtab sample_stack 1%Z 2%Z
           (IErr (Plain sample_error)) shallow_state).
  simpl. lia.
Defined.

(** ** What the racing calls never do *)

Section RaceBounds.

Variable sym : symtab.
Variable stk : list uintptr.

Lemma pending_makes_insert (ts : list point) :
  forall (t : nat) (pt pt' : point),
    ts !! t = Some pt ->
    (pending_makes (<[t := pt']> ts) + may_make pt
     = pending_makes ts + may_make pt')%nat.
Proof.
  induction ts as [|x ts IH]; intros t pt pt' Ht; [discriminate |].
  destruct t as [|t]; simpl in *.
  - injection Ht as ->. lia.
  - specialize (IH t pt pt' Ht). lia.
Qed.

Lemma pending_makes_replicate (k : nat) : pending_makes (replicate k AtCheck) = k.
Proof. induction k as [|k IH]; simpl; [reflexivity | now rewrite IH]. Qed.

Lemma makes_step (t : nat) (c : config) :
  (length (arrays (mem (step_at sym stk t c)))
   + pending_makes (threads (step_at sym stk t c))
   <= length (arrays (mem c)) + pending_makes (threads c))%nat.
Proof.
  unfold step_at. destruct (threads c !! t) as [pt|] eqn:Ht; [| lia].
  destruct (step_thread sym stk (mem c) pt) as [[m' pt']|] eqn:Hstep; [| lia].
  simpl. pose proof (pending_makes_insert _ t pt pt' Ht) as Hp.
  destruct pt as [| |i| |r|fs]; simpl in Hstep.
  - injection Hstep as <- <-. destruct (field (mem c)); simpl in *; lia.
  - injection Hstep as <- <-. simpl in *. rewrite length_app. simpl. lia.
  - destruct (stk !! i); [destruct (field (mem c)); [| discriminate] |];
      injection Hstep as <- <-; simpl in *; rewrite ?length_alter; lia.
  - injection Hstep as <- <-. simpl in *. lia.
  - injection Hstep as <- <-. simpl in *. lia.
  - discriminate.
Qed.

(** X21: the racing calls duplicate work by at most one array each.
    However [k] first calls of [StackFrames] interleave, [make] runs at
    most [k] times. *)
Theorem race_makes_bounded (k : nat) (sched : list nat) :
  (length (arrays (mem (run sym stk sched (init_config k)))) <= k)%nat.
Proof.
  assert (forall c,
            (length (arrays (mem (run sym stk sched c)))
             + pending_makes (threads (run sym stk sched c))
             <= length (arrays (mem c)) + pending_makes (threads c))%nat) as H.
  { unfold run. induction sched as [|t sched IH]; intros c; simpl; [lia |].
    specialize (IH (step_at sym stk t c)). pose proof (makes_step t c). lia. }
  specialize (H (init_config k)). simpl in H.
  rewrite pending_makes_replicate in H. lia.
Qed.

(** X22: no racing call indexes outside the slice.  However the first
    calls interleave, whenever a goroutine is about to write entry [i] of
    [err.frames], the field holds a slice as long as the stack, so the
    write is in range and the call does not panic. *)
Theorem race_writes_in_range (k : nat) (sched : list nat) (t i : nat) (pc : uintptr) :
  threads (run sym stk sched (init_config k)) !! t = Some (AtLoop i) ->
  stk !! i = Some pc ->
  exists a arr,
    field (mem (run sym stk sched (init_config k))) = Some a /\
    arrays (mem (run sym stk sched (init_config k))) !! a = Some arr /\
    (i < length arr)%nat.
Proof.
  intros Ht Hi.
  pose proof (race_inv_run sym stk sched _ (race_inv_init sym stk k)) as Hinv.
  unfold race_inv in Hinv.
  destruct (field (mem (run sym stk sched (init_config k)))) as [a|].
  - destruct Hinv as (arr & t0 & pt0 & Harr & Hlen & _).
    exists a, arr. repeat split; [exact Harr |].
    rewrite Hlen. eapply lookup_lt_Some. exact Hi.
  - now destruct (Hinv t (AtLoop i) Ht).
Qed.

End RaceBounds.

Lemma race_writes_in_range_witness :
  exists a arr,
    field (mem (run sample_symtab [4198912%Z] [0; 1; 0; 1]%nat (init_config 2)))
    = Some a /\
    arrays (mem (run sample_symtab [4198912%Z] [0; 1; 0; 1]%nat (init_config 2))) !! a
    = Some arr /\
    (0 < length arr)%nat.
Proof.
  apply (race_writes_in_range sample_symtab [4198912%Z] 2 [0; 1; 0; 1]%nat 0 0
           4198912%Z);
    reflexivity.
Defined.
